(** * The keyed resource pool of src/internal/pool.js

    A shallow embedding of [class Pool] and [class PendingRequest], and the
    properties of the pool that hold (or fail) on it.

    The pool lives on a single JavaScript event loop.  Every method body runs
    to completion without interleaving; what interleaves are the method calls
    themselves, the settling of the factory's promises, the promise
    continuations ([.then]/[.catch] callbacks) and the [setTimeout] callbacks.
    The embedding therefore has two layers:

    - the method bodies, as total functions on the state of the pool
      ([_acquire], [_release], [purge], ...), written after the source line
      by line;
    - an event loop ([step], [run]) whose events are the things that can
      happen one after another, in any order.

    Conventions.
    - Keys are the strings the driver uses (server addresses); the three
      per-key objects [_pools], [_acquireRequests], [_activeResourceCounts]
      are finite maps from keys.  Names of [Object.prototype] members are not
      keys.
    - Resources are opaque objects, hence truthy: [if (resource)] only
      separates a resource from [null].  They are numbered by [nat].
    - An idle array is only ever touched through [push], [pop] and [length],
      so it is kept as a list whose head is the LAST element of the array:
      [push] is [cons] and [pop] takes the head.
    - A queue of pending requests is touched through [push], [shift] and
      [filter]; it is kept in array order: [push] appends, [shift] takes the
      head.
    - [_destroy], [_create] and the settling of the promises returned by
      [acquire] are calls to the outside; they are recorded in logs, oldest
      call first.  [_validate] is a predicate on resources.  None of the three
      callbacks re-enters the pool or throws.
    - The logger is purely observational and is left out. *)

From stdpp Require Import gmap strings list fin_maps.

(** ** Data *)

Abbreviation Key := string (only parsing).
Abbreviation Resource := nat (only parsing).

(** A reference to a [PendingRequest] object; the same number names the timer
    created for it by [setTimeout]. *)
Abbreviation ref := nat (only parsing).

(** The promise returned by one call of [acquire]. *)
Abbreviation call := nat (only parsing).

Inductive Error :=
  | AcquisitionTimeout (ms : Z)
      (* newError(`Connection acquisition timed out in ${ms} ms.`) *)
  | FactoryError (e : nat).
      (* whatever the factory's promise was rejected with *)

(** How the promise returned by [acquire] was settled. *)
Inductive outcome :=
  | Resolved (r : Resource)
  | Failed (e : Error).

(** The state of a promise produced by [_acquire]:
    [Promise.resolve(resource)] is [Fulfilled (Some resource)],
    [Promise.resolve(null)] is [Fulfilled None], and the promise returned by
    [this._create] starts as [Unsettled]. *)
Inductive promise :=
  | Fulfilled (v : option Resource)
  | Rejected (e : Error)
  | Unsettled.

(** The two callbacks the pool attaches to such a promise. *)
Inductive continuation :=
  | AcquireThen (c : call) (k : Key)
      (* the [.then] of [acquire], lines 57-97 *)
  | ProcessThen (q : ref) (k : Key).
      (* the [.catch]/[.then] of [_processPendingAcquireRequests], 198-218 *)

Record task := Task { t_promise : promise; t_then : continuation }.

(** ** PendingRequest *)

Record PendingRequest := mkRequest {
  _promise : call;      (* [_resolve] and [_reject]: the promise they settle *)
  _timeoutId : ref;
  _completed : bool
}.

(** What a method of [PendingRequest] does to the outside. *)
Inductive effect :=
  | ClearTimeout (id : ref)
  | Settle (c : call) (o : outcome).

Module PendingRequest.

Definition isCompleted (q : PendingRequest) : bool := _completed q.

Definition complete (q : PendingRequest) : PendingRequest :=
  mkRequest (_promise q) (_timeoutId q) true.

Definition resolve (resource : Resource) (q : PendingRequest)
  : PendingRequest * list effect :=
  if _completed q then (q, [])
  else (complete q,
        [ClearTimeout (_timeoutId q); Settle (_promise q) (Resolved resource)]).

Definition reject (error : Error) (q : PendingRequest)
  : PendingRequest * list effect :=
  if _completed q then (q, [])
  else (complete q,
        [ClearTimeout (_timeoutId q); Settle (_promise q) (Failed error)]).

End PendingRequest.

(** ** The pool and its surroundings *)

Record Config := mkConfig {
  _validate : Resource → bool;
  _maxSize : Z;               (* 0 stands for every falsy value *)
  _acquisitionTimeout : Z
}.

Record Pool := mkPool {
  _pools : gmap Key (list Resource);
  _acquireRequests : gmap Key (list ref);
  _activeResourceCounts : gmap Key Z;
  heap : gmap ref PendingRequest;   (* the PendingRequest objects *)
  timers : gmap ref Key;            (* armed timers, with the key they close over *)
  tasks : gmap nat task;            (* continuations that did not run yet *)
  destroyed : list Resource;        (* calls of [_destroy] *)
  created : list Key;               (* calls of [_create] *)
  settled : list (call * outcome);  (* promises of [acquire] settled so far *)
  next : nat                        (* next unused number *)
}.

Definition empty_pool : Pool :=
  mkPool ∅ ∅ ∅ ∅ ∅ ∅ [] [] [] 0.

Definition set_pools (f : gmap Key (list Resource) → gmap Key (list Resource))
  (w : Pool) : Pool :=
  mkPool (f (_pools w)) (_acquireRequests w) (_activeResourceCounts w) (heap w)
    (timers w) (tasks w) (destroyed w) (created w) (settled w) (next w).

Definition set_requests (f : gmap Key (list ref) → gmap Key (list ref))
  (w : Pool) : Pool :=
  mkPool (_pools w) (f (_acquireRequests w)) (_activeResourceCounts w) (heap w)
    (timers w) (tasks w) (destroyed w) (created w) (settled w) (next w).

Definition set_counts (f : gmap Key Z → gmap Key Z) (w : Pool) : Pool :=
  mkPool (_pools w) (_acquireRequests w) (f (_activeResourceCounts w)) (heap w)
    (timers w) (tasks w) (destroyed w) (created w) (settled w) (next w).

Definition set_heap (f : gmap ref PendingRequest → gmap ref PendingRequest)
  (w : Pool) : Pool :=
  mkPool (_pools w) (_acquireRequests w) (_activeResourceCounts w) (f (heap w))
    (timers w) (tasks w) (destroyed w) (created w) (settled w) (next w).

Definition set_timers (f : gmap ref Key → gmap ref Key) (w : Pool) : Pool :=
  mkPool (_pools w) (_acquireRequests w) (_activeResourceCounts w) (heap w)
    (f (timers w)) (tasks w) (destroyed w) (created w) (settled w) (next w).

Definition set_tasks (f : gmap nat task → gmap nat task) (w : Pool) : Pool :=
  mkPool (_pools w) (_acquireRequests w) (_activeResourceCounts w) (heap w)
    (timers w) (f (tasks w)) (destroyed w) (created w) (settled w) (next w).

Definition destroy_all (rs : list Resource) (w : Pool) : Pool :=
  mkPool (_pools w) (_acquireRequests w) (_activeResourceCounts w) (heap w)
    (timers w) (tasks w) (destroyed w ++ rs) (created w) (settled w) (next w).

Definition _destroy (resource : Resource) (w : Pool) : Pool :=
  destroy_all [resource] w.

Definition log_create (k : Key) (w : Pool) : Pool :=
  mkPool (_pools w) (_acquireRequests w) (_activeResourceCounts w) (heap w)
    (timers w) (tasks w) (destroyed w) (created w ++ [k]) (settled w) (next w).

Definition log_settle (c : call) (o : outcome) (w : Pool) : Pool :=
  mkPool (_pools w) (_acquireRequests w) (_activeResourceCounts w) (heap w)
    (timers w) (tasks w) (destroyed w) (created w) (settled w ++ [(c, o)])
    (next w).

Definition bump (w : Pool) : Pool :=
  mkPool (_pools w) (_acquireRequests w) (_activeResourceCounts w) (heap w)
    (timers w) (tasks w) (destroyed w) (created w) (settled w) (S (next w)).

(** [clearTimeout] and the two settling functions of a promise, as the pool
    sees them. *)
Definition perform (e : effect) (w : Pool) : Pool :=
  match e with
  | ClearTimeout id => set_timers (delete id) w
  | Settle c o => log_settle c o w
  end.

Definition perform_all (es : list effect) (w : Pool) : Pool :=
  foldl (λ w e, perform e w) w es.

(** Calling a method of the request object stored at [q]: the object is
    updated in place and its effects happen. *)
Definition invoke (m : PendingRequest → PendingRequest * list effect)
  (q : ref) (request : PendingRequest) (w : Pool) : Pool :=
  let '(request', es) := m request in
  perform_all es (set_heap <[q := request']> w).

(** ** The counters (lines 231-250) *)

Definition resourceAcquired (key : Key) (activeResourceCounts : gmap Key Z)
  : gmap Key Z :=
  let currentCount := default 0%Z (activeResourceCounts !! key) in
  <[key := (currentCount + 1)%Z]> activeResourceCounts.

Definition resourceReleased (key : Key) (activeResourceCounts : gmap Key Z)
  : gmap Key Z :=
  let currentCount := default 0%Z (activeResourceCounts !! key) in
  let nextCount := (currentCount - 1)%Z in
  if (0 <? nextCount)%Z then <[key := nextCount]> activeResourceCounts
  else delete key activeResourceCounts.

(** ** The methods of Pool *)

Section Pool.

Variable cfg : Config.

(** [has] (line 126) and [activeResourceCount] (line 135). *)
Definition has (key : Key) (w : Pool) : bool :=
  bool_decide (is_Some (_pools w !! key)).

Definition activeResourceCount (key : Key) (w : Pool) : Z :=
  default 0%Z (_activeResourceCounts w !! key).

(** The loop of [_acquire] (lines 144-153) on the idle list [pool]: the
    resource it returns, if any, what is left of the list, and the resources
    it handed to [_destroy], in that order. *)
Fixpoint pop_idle (pool : list Resource)
  : option Resource * list Resource * list Resource :=
  match pool with
  | [] => (None, [], [])
  | resource :: pool' =>
      if _validate cfg resource then (Some resource, pool', [])
      else let '(found, rest, dead) := pop_idle pool' in
           (found, rest, resource :: dead)
  end.

(** [_acquire] (lines 138-161): the promise it returns and the pool it
    leaves.  The entry of [key] in [_pools] is created when missing, and the
    array in it is the one the loop has popped from. *)
Definition _acquire (key : Key) (w : Pool) : promise * Pool :=
  let pool := default [] (_pools w !! key) in
  let '(found, rest, dead) := pop_idle pool in
  let w := destroy_all dead (set_pools <[key := rest]> w) in
  match found with
  | Some resource => (Fulfilled (Some resource), w)
  | None =>
      if negb (_maxSize cfg =? 0)%Z
         && (_maxSize cfg <=? activeResourceCount key w)%Z
      then (Fulfilled None, w)
      else (Unsettled, log_create key w)
  end.

(** Attaching a callback to a promise. *)
Definition spawn (p : promise) (k : continuation) (w : Pool) : Pool :=
  bump (set_tasks <[next w := Task p k]> w).

(** [acquire] (lines 56-98), up to the point where it returns its promise:
    [_acquire] has run and the [.then] callback is attached. *)
Definition acquire (key : Key) (w : Pool) : call * Pool :=
  let '(p, w) := _acquire key w in
  let c := next w in
  (c, spawn p (AcquireThen c key) (bump w)).

(** The [.then] callback of [acquire] on the value of the promise
    (lines 57-97).  With a resource it counts it and resolves the caller's
    promise; with [null] it queues a new PendingRequest with its timer. *)
Definition acquire_then (c : call) (key : Key) (resource : option Resource)
  (w : Pool) : Pool :=
  match resource with
  | Some resource =>
      log_settle c (Resolved resource) (set_counts (resourceAcquired key) w)
  | None =>
      let w := match _acquireRequests w !! key with
               | Some _ => w
               | None => set_requests <[key := []]> w
               end in
      let timeoutId := next w in
      let request := mkRequest c timeoutId false in
      let w := bump (set_heap <[timeoutId := request]>
                       (set_timers <[timeoutId := key]> w)) in
      set_requests
        <[key := default [] (_acquireRequests w !! key) ++ [timeoutId]]> w
  end.

(** The [setTimeout] callback of lines 76-92, for the request at [q]. *)
Definition on_timeout (key : Key) (q : ref) (request : PendingRequest)
  (w : Pool) : Pool :=
  let w := match _acquireRequests w !! key with
           | Some pendingRequests =>
               set_requests
                 <[key := filter (λ item, item ≠ q) pendingRequests]> w
           | None => w
           end in
  if PendingRequest.isCompleted request then w
  else invoke
         (PendingRequest.reject (AcquisitionTimeout (_acquisitionTimeout cfg)))
         q request w.

(** [purge] (lines 104-111). *)
Definition purge (key : Key) (w : Pool) : Pool :=
  let pool := default [] (_pools w !! key) in
  set_pools (delete key) (destroy_all pool w).

(** [purgeAll] (line 117): [purge] on every key [_pools] has when it
    starts.  [Object.keys] lists the keys in insertion order, [elements] in
    its own; the order only shows in the order of the [_destroy] calls
    across keys, which nothing below depends on. *)
Definition purgeAll (w : Pool) : Pool :=
  foldr purge w (elements (dom (_pools w))).

(** [_processPendingAcquireRequests] (lines 191-223) up to the point where
    the callbacks are attached to the promise of [_acquire]. *)
Definition _processPendingAcquireRequests (key : Key) (w : Pool) : Pool :=
  match _acquireRequests w !! key with
  | Some requests =>
      match requests with
      | pendingRequest :: rest =>
          let w := set_requests <[key := rest]> w in
          let '(p, w) := _acquire key w in
          spawn p (ProcessThen pendingRequest key) w
      | [] => set_requests (delete key) w
      end
  | None => w
  end.

(** [_release] (lines 163-189). *)
Definition _release (key : Key) (resource : Resource) (w : Pool) : Pool :=
  let w :=
    match _pools w !! key with
    | Some pool =>
        if negb (_validate cfg resource) then _destroy resource w
        else set_pools <[key := resource :: pool]> w
    | None => _destroy resource w
    end in
  let w := set_counts (resourceReleased key) w in
  _processPendingAcquireRequests key w.

(** The callbacks of [_processPendingAcquireRequests] (lines 198-218) on the
    settled promise [p], for the request object [request] stored at [q]. *)
Definition process_then (q : ref) (request : PendingRequest) (key : Key)
  (p : promise) (w : Pool) : Pool :=
  match p with
  | Rejected error => invoke (PendingRequest.reject error) q request w
  | Fulfilled (Some resource) =>
      if PendingRequest.isCompleted request then _release key resource w
      else invoke (PendingRequest.resolve resource) q request
             (set_counts (resourceAcquired key) w)
  | Fulfilled None => w
  | Unsettled => w
  end.

(** ** The event loop *)

Inductive event :=
  | Acquire (key : Key)                (* somebody calls [acquire(key)] *)
  | Release (key : Key) (r : Resource) (* a resource calls the release hook *)
  | Purge (key : Key)
  | PurgeAll
  | Fulfil (t : nat) (r : Resource)    (* the factory resolves its promise *)
  | Reject (t : nat) (e : Error)       (* the factory rejects its promise *)
  | Run (t : nat)                      (* the callback of a settled promise runs *)
  | Timeout (id : ref).                (* an armed timer fires *)

(** Settling the promise of task [t], which must be unsettled. *)
Definition settle (t : nat) (p : promise) (w : Pool) : option Pool :=
  match tasks w !! t with
  | Some (Task Unsettled k) => Some (set_tasks <[t := Task p k]> w)
  | _ => None
  end.

(** Running the callback of task [t], whose promise must be settled. *)
Definition run_task (t : nat) (w : Pool) : option Pool :=
  match tasks w !! t with
  | Some (Task Unsettled _) | None => None
  | Some (Task p k) =>
      let w := set_tasks (delete t) w in
      match k, p with
      | AcquireThen c key, Fulfilled v => Some (acquire_then c key v w)
      | AcquireThen c key, Rejected e => Some (log_settle c (Failed e) w)
      | AcquireThen _ _, Unsettled => None
      | ProcessThen q key, _ =>
          request ← heap w !! q; Some (process_then q request key p w)
      end
  end.

(** A timer fires only while it is armed; firing disarms it. *)
Definition fire (id : ref) (w : Pool) : option Pool :=
  key ← timers w !! id;
  request ← heap w !! id;
  Some (on_timeout key id request (set_timers (delete id) w)).

Definition step (e : event) (w : Pool) : option Pool :=
  match e with
  | Acquire key => Some (snd (acquire key w))
  | Release key r => Some (_release key r w)
  | Purge key => Some (purge key w)
  | PurgeAll => Some (purgeAll w)
  | Fulfil t r => settle t (Fulfilled (Some r)) w
  | Reject t e => settle t (Rejected e) w
  | Run t => run_task t w
  | Timeout id => fire id w
  end.

Fixpoint run (es : list event) (w : Pool) : option Pool :=
  match es with
  | [] => Some w
  | e :: es => w' ← step e w; run es w'
  end.

(** The states the pool can be in: those some sequence of events leads to
    from the state the constructor leaves. *)
Definition reachable (w : Pool) : Prop :=
  ∃ es, run es empty_pool = Some w.

End Pool.

(** The event loop lets more orders through than a JavaScript engine does (an
    engine runs the callback of an already fulfilled promise before any
    timer), so what holds of every run holds of the engine's runs.  The runs
    exhibited below are runs an engine can make. *)

(** * Properties *)

(** The idle list and the pending queue of a key, empty when it has none. *)
Definition idle (key : Key) (w : Pool) : list Resource :=
  default [] (_pools w !! key).

Definition queue (key : Key) (w : Pool) : list ref :=
  default [] (_acquireRequests w !! key).

(** The resource a promise of [_acquire] is fulfilled with, if any. *)
Definition offered (p : promise) : option Resource :=
  match p with Fulfilled v => v | _ => None end.

(** The fields [_acquire] leaves alone: it only touches [_pools] and calls
    [_destroy] and [_create]. *)
Definition same_bookkeeping (w w' : Pool) : Prop :=
  _acquireRequests w' = _acquireRequests w ∧
  _activeResourceCounts w' = _activeResourceCounts w ∧
  heap w' = heap w ∧ timers w' = timers w ∧ tasks w' = tasks w ∧
  settled w' = settled w ∧ next w' = next w.

(** Every stored counter is at least 1. *)
Definition counts_positive (m : gmap Key Z) : Prop :=
  ∀ key n, m !! key = Some n → (1 ≤ n)%Z.





(** An event that purges [key]. *)
Definition purges (key : Key) (e : event) : Prop :=
  e = Purge key ∨ e = PurgeAll.

(** The three ways a pending request can be completed. *)
Inductive completion :=
  | ByResolve (r : Resource)   (* a call of [resolve] *)
  | ByReject (e : Error)       (* a call of [reject] *)
  | ByTimeout.                 (* its timer callback runs *)

Definition outcome_of (cfg : Config) (a : completion) : outcome :=
  match a with
  | ByResolve r => Resolved r
  | ByReject e => Failed e
  | ByTimeout => Failed (AcquisitionTimeout (_acquisitionTimeout cfg))
  end.

(** One attempt to complete the request object at [q], queued under [key];
    the timer callback is run whether or not the timer is still armed. *)
Definition attempt (cfg : Config) (key : Key) (q : ref) (a : completion)
  (w : Pool) : option Pool :=
  request ← heap w !! q;
  Some match a with
       | ByResolve r => invoke (PendingRequest.resolve r) q request w
       | ByReject e => invoke (PendingRequest.reject e) q request w
       | ByTimeout => on_timeout cfg key q request (set_timers (delete q) w)
       end.

Fixpoint attempts (cfg : Config) (key : Key) (q : ref) (l : list completion)
  (w : Pool) : option Pool :=
  match l with
  | [] => Some w
  | a :: l => w' ← attempt cfg key q a w; attempts cfg key q l w'
  end.

(** ** Sample pools *)

(** At most one active resource per key, every resource valid. *)
Definition one_at_a_time : Config := mkConfig (λ _, true) 1 60000.

(** No bound; resource 7 does not pass validation. *)
Definition seven_is_broken : Config :=
  mkConfig (λ r, negb (r =? 7)) 0 60000.

(** The state a run leaves, the initial state when it cannot be made. *)
Definition after (cfg : Config) (es : list event) : Pool :=
  default empty_pool (run cfg es empty_pool).

(** One resource, 7, is active for "A". *)
Definition one_active : list event :=
  [Acquire "A"; Fulfil 1 7; Run 1].

(** Then two more callers ask for "A"; their requests 4 and 7 are queued. *)
Definition two_waiting : list event :=
  one_active ++ [Acquire "A"; Run 3; Acquire "A"; Run 6].


(** Two callers ask for "A" before either resource is there. *)
Definition two_at_once : list event :=
  [Acquire "A"; Acquire "A"; Fulfil 1 7; Fulfil 3 8; Run 1; Run 3].

(** With 7 active a second caller is queued as request 4; "A" is purged and 7
    released, so the factory is asked for a resource on behalf of request 4;
    the request times out before the factory answers. *)
Definition timed_out_while_creating : list event :=
  one_active ++
  [Acquire "A"; Run 3; Purge "A"; Release "A" 7; Timeout 4].

(** ... and then the factory fails. *)
Definition left_behind : list event :=
  timed_out_while_creating ++ [Reject 5 (FactoryError 0); Run 5].

(** The active and the idle resources of a key together are within the
    bound. *)
Definition within_bound (cfg : Config) (key : Key) (w : Pool) : Prop :=
  (activeResourceCount key w + Z.of_nat (length (idle key w))
   ≤ _maxSize cfg)%Z.

(** One acquisition from the call of [acquire] to the end of its callback:
    the promise of [_acquire] is fulfilled already, or the factory resolves
    it, or the factory rejects it.  [t] names the callback. *)
Definition acquisition (key : Key) (t : nat) (es : list event) : Prop :=
  es = [Acquire key; Run t] ∨
  (∃ r, es = [Acquire key; Fulfil t r; Run t]) ∨
  (∃ e, es = [Acquire key; Reject t e; Run t]).

(** Nobody is queued and nobody is about to be. *)
Definition nobody_queued (w : Pool) : Prop :=
  _acquireRequests w = ∅ ∧ heap w = ∅ ∧ timers w = ∅ ∧
  ∀ t c key, tasks w !! t ≠ Some (Task (Fulfilled None) (AcquireThen c key)).

(** ** The bookkeeping of requests, timers, callbacks and promises *)

(** The part of the state that is about who waits for what. *)
Definition core (w : Pool) :=
  (_acquireRequests w, heap w, timers w, tasks w, settled w, next w).

(** What the methods do to that part, one move at a time. *)
Inductive move : Pool → Pool → Prop :=
  | move_none w w' :
      core w' = core w → move w w'
  | move_call key p w w' :
      (* [acquire] attaches its callback *)
      core w' = (_acquireRequests w, heap w, timers w,
                 <[S (next w) := Task p (AcquireThen (next w) key)]> (tasks w),
                 settled w, S (S (next w))) →
      move w w'
  | move_serve key q rest p w w' :
      (* the servicing takes the head of a queue *)
      _acquireRequests w !! key = Some (q :: rest) →
      core w' = (<[key := rest]> (_acquireRequests w), heap w, timers w,
                 <[next w := Task p (ProcessThen q key)]> (tasks w),
                 settled w, S (next w)) →
      move w w'
  | move_drop key w w' :
      (* the servicing finds an empty queue *)
      _acquireRequests w !! key = Some [] →
      core w' = (delete key (_acquireRequests w), heap w, timers w, tasks w,
                 settled w, next w) →
      move w w'
  | move_settle t k p w w' :
      (* the factory settles a promise *)
      tasks w !! t = Some (Task Unsettled k) →
      core w' = (_acquireRequests w, heap w, timers w,
                 <[t := Task p k]> (tasks w), settled w, next w) →
      move w w'
  | move_deliver t p c key o w w' :
      (* the callback of [acquire] settles the caller's promise *)
      tasks w !! t = Some (Task p (AcquireThen c key)) →
      core w' = (_acquireRequests w, heap w, timers w, delete t (tasks w),
                 settled w ++ [(c, o)], next w) →
      move w w'
  | move_enqueue t p c key w w' :
      (* the callback of [acquire] queues a new request *)
      tasks w !! t = Some (Task p (AcquireThen c key)) →
      core w' = (<[key := queue key w ++ [next w]]> (_acquireRequests w),
                 <[next w := mkRequest c (next w) false]> (heap w),
                 <[next w := key]> (timers w), delete t (tasks w),
                 settled w, S (next w)) →
      move w w'
  | move_finish t p q key w w' :
      (* the callback of the servicing ends without completing its request *)
      tasks w !! t = Some (Task p (ProcessThen q key)) →
      core w' = (_acquireRequests w, heap w, timers w, delete t (tasks w),
                 settled w, next w) →
      move w w'
  | move_answer t p q key request o w w' :
      (* the callback of the servicing completes its request *)
      tasks w !! t = Some (Task p (ProcessThen q key)) →
      heap w !! q = Some request → _completed request = false →
      core w' = (_acquireRequests w,
                 <[q := PendingRequest.complete request]> (heap w),
                 delete (_timeoutId request) (timers w), delete t (tasks w),
                 settled w ++ [(_promise request, o)], next w) →
      move w w'
  | move_timeout id key request o w w' :
      (* a timer fires *)
      timers w !! id = Some key → heap w !! id = Some request →
      core w' =
        (match _acquireRequests w !! key with
         | Some l => <[key := filter (λ item, item ≠ id) l]> (_acquireRequests w)
         | None => _acquireRequests w
         end,
         if _completed request then heap w
         else <[id := PendingRequest.complete request]> (heap w),
         if _completed request then delete id (timers w)
         else delete (_timeoutId request) (delete id (timers w)),
         tasks w,
         if _completed request then settled w
         else settled w ++ [(_promise request, o)],
         next w) →
      move w w'.

(** Every request object carries the number of its own timer, and an armed
    timer belongs to a request that is not completed. *)
Definition timers_ok (w : Pool) : Prop :=
  ∀ id, (∀ request, heap w !! id = Some request → _timeoutId request = id) ∧
        (∀ key, timers w !! id = Some key →
                ∃ request, heap w !! id = Some request ∧
                           _completed request = false).

(** Every queued request has its timer armed for the key of its queue; a
    request the servicing has taken exists and is in no queue. *)
Definition waiting_ok (w : Pool) : Prop :=
  (∀ key, NoDup (queue key w) ∧ Forall (λ q, q < next w) (queue key w)) ∧
  (∀ key q, q ∈ queue key w → timers w !! q = Some key) ∧
  (∀ t p q key, tasks w !! t = Some (Task p (ProcessThen q key)) →
                q < next w ∧ is_Some (heap w !! q) ∧ ∀ k, q ∉ queue k w).

(** Every promise of [acquire] has one holder: the callback of [acquire]
    that will settle it, or the request that will, or it is settled. *)
Definition calls_ok (w : Pool) : Prop :=
  (∀ t p c key, tasks w !! t = Some (Task p (AcquireThen c key)) →
     t = S c ∧ t < next w ∧ (c ∉ (settled w).*1) ∧
     ∀ q request, heap w !! q = Some request → _promise request ≠ c) ∧
  (∀ q request, heap w !! q = Some request →
     q < next w ∧ _promise request < next w ∧
     (_completed request = false → _promise request ∉ ((settled w).*1))) ∧
  (∀ q q' request request',
     heap w !! q = Some request → heap w !! q' = Some request' →
     _promise request = _promise request' → q = q') ∧
  (∀ c, c ∈ ((settled w).*1) → c < next w) ∧
  NoDup ((settled w).*1).

(** A request that is not completed has its timer armed. *)
Definition pending_armed (w : Pool) : Prop :=
  ∀ q request, heap w !! q = Some request → _completed request = false →
               is_Some (timers w !! q).

(** ** The idle loop of [_acquire] *)

Section Idle.

Variable cfg : Config.

(** The loop splits the idle list into the resources it destroyed, the one
    it returns and the ones it left, in the order of the list. *)
Lemma pop_idle_split pool :
  ∀ found rest dead, pop_idle cfg pool = (found, rest, dead) →
  pool = dead ++ option_list found ++ rest.
Proof.
  induction pool as [|r pool IH]; intros found rest dead; simpl.
  - by intros [= <- <- <-].
  - destruct (_validate cfg r) eqn:Hr.
    + by intros [= <- <- <-].
    + destruct (pop_idle cfg pool) as [[f p] d].
      intros [= <- <- <-]. simpl. f_equal. by apply IH.
Qed.

Lemma pop_idle_dead pool :
  ∀ found rest dead, pop_idle cfg pool = (found, rest, dead) →
  Forall (λ r, _validate cfg r = false) dead.
Proof.
  induction pool as [|r pool IH]; intros found rest dead; simpl.
  - intros [= <- <- <-]. constructor.
  - destruct (_validate cfg r) eqn:Hr.
    + intros [= <- <- <-]. constructor.
    + destruct (pop_idle cfg pool) as [[f p] d].
      intros [= <- <- <-]. constructor; [done | by eapply IH].
Qed.

Lemma pop_idle_found pool :
  ∀ resource rest dead, pop_idle cfg pool = (Some resource, rest, dead) →
  _validate cfg resource = true.
Proof.
  induction pool as [|r pool IH]; intros resource rest dead; simpl.
  - done.
  - destruct (_validate cfg r) eqn:Hr.
    + by intros [= <- <- <-].
    + destruct (pop_idle cfg pool) as [[f p] d].
      intros [= -> <- <-]. by eapply IH.
Qed.

Lemma pop_idle_exhausted pool :
  ∀ rest dead, pop_idle cfg pool = (None, rest, dead) → rest = [].
Proof.
  induction pool as [|r pool IH]; intros rest dead; simpl.
  - by intros [= <- <-].
  - destruct (_validate cfg r) eqn:Hr; [done |].
    destruct (pop_idle cfg pool) as [[f p] d].
    intros [= -> <- <-]. by eapply IH.
Qed.

(** A valid resource on top of the list is what the loop returns. *)
Lemma pop_idle_top resource pool :
  _validate cfg resource = true →
  pop_idle cfg (resource :: pool) = (Some resource, pool, []).
Proof. intros H. simpl. by rewrite H. Qed.

(** [_acquire] by the outcome of its loop. *)
Lemma _acquire_unfold key w :
  ∃ found rest dead,
    pop_idle cfg (idle key w) = (found, rest, dead) ∧
    let w1 := destroy_all dead (set_pools <[key := rest]> w) in
    _acquire cfg key w =
      match found with
      | Some resource => (Fulfilled (Some resource), w1)
      | None =>
          if negb (_maxSize cfg =? 0)%Z
             && (_maxSize cfg <=? activeResourceCount key w)%Z
          then (Fulfilled None, w1)
          else (Unsettled, log_create key w1)
      end.
Proof.
  unfold _acquire, idle.
  destruct (pop_idle cfg (default [] (_pools w !! key))) as [[found rest] dead].
  exists found, rest, dead. split; [done |]. by destruct found.
Qed.
Lemma _release_push key resource pool w :
  _pools w !! key = Some pool →
  _validate cfg resource = true →
  _acquireRequests w !! key = None →
  _release cfg key resource w =
    set_counts (resourceReleased key)
      (set_pools <[key := resource :: pool]> w).
Proof.
  intros Hp Hv Hq. unfold _release, _processPendingAcquireRequests.
  rewrite Hp, Hv. simpl. by rewrite Hq.
Qed.

(** C4, as the code has it.  One call of [acquire] splits the idle list of
    the key, most recently released first, into the resources it passes to
    [_destroy] (all of them fail [_validate]), the resource it hands out
    (which passes [_validate]) and the resources it leaves idle; only when
    the list is exhausted without a valid resource does it queue or create
    anew.  Nothing else leaves the list.  The last part says that the top of
    the list is the resource released last. *)
Theorem acquire_validates_idle key w :
  ∃ dead found rest,
    idle key w = dead ++ option_list found ++ rest ∧
    Forall (λ r, _validate cfg r = false) dead ∧
    (∀ r, found = Some r → _validate cfg r = true) ∧
    (found = None → rest = []) ∧
    (let '(c, w') := acquire cfg key w in
     destroyed w' = destroyed w ++ dead ∧
     idle key w' = rest ∧
     ∃ t p, tasks w' !! t = Some (Task p (AcquireThen c key)) ∧
            offered p = found) ∧
    (∀ r pool, _pools w !! key = Some pool → _validate cfg r = true →
               _acquireRequests w !! key = None →
               idle key (_release cfg key r w) = r :: pool).
Proof.
  destruct (_acquire_unfold key w) as (found & rest & dead & Hloop & Hacq).
  exists dead, found, rest. repeat split.
  - by apply pop_idle_split.
  - by eapply pop_idle_dead.
  - intros r ->. by eapply pop_idle_found.
  - intros ->. by eapply pop_idle_exhausted.
  - unfold acquire. simpl in Hacq. rewrite Hacq. clear Hacq.
    destruct found as [r|]; [| destruct (negb _ && _)]; simpl;
      (split; [done |]);
      (split; [unfold idle; simpl; by rewrite lookup_insert_eq |]);
      eexists _, _; (split; [apply lookup_insert_eq | done]).
  - intros r pool Hp Hv Hq. rewrite (_release_push _ _ pool) by done.
    unfold idle. simpl. by rewrite lookup_insert_eq.
Qed.

End Idle.

(** ** What each method touches *)

Section Frame.

Variable cfg : Config.

Lemma _acquire_frame key w : same_bookkeeping w (_acquire cfg key w).2.
Proof.
  destruct (_acquire_unfold cfg key w) as (found & rest & dead & _ & Hacq).
  simpl in Hacq. rewrite Hacq.
  destruct found; [| destruct (negb _ && _)]; by repeat split.
Qed.

Lemma _acquire_pools key w :
  ∃ rest, _pools (_acquire cfg key w).2 = <[key := rest]> (_pools w).
Proof.
  destruct (_acquire_unfold cfg key w) as (found & rest & dead & _ & Hacq).
  simpl in Hacq. rewrite Hacq. exists rest.
  by destruct found; [| destruct (negb _ && _)].
Qed.

Lemma perform_all_frame es w :
  let w' := perform_all es w in
  _pools w' = _pools w ∧ _acquireRequests w' = _acquireRequests w ∧
  _activeResourceCounts w' = _activeResourceCounts w ∧
  heap w' = heap w ∧ tasks w' = tasks w ∧ next w' = next w.
Proof.
  revert w. induction es as [|e es IH]; intros w; simpl; [done |].
  destruct (IH (perform e w)) as (-> & -> & -> & -> & -> & ->).
  by destruct e.
Qed.

Lemma invoke_frame m q request w :
  let w' := invoke m q request w in
  _pools w' = _pools w ∧ _acquireRequests w' = _acquireRequests w ∧
  _activeResourceCounts w' = _activeResourceCounts w ∧
  tasks w' = tasks w ∧ next w' = next w.
Proof.
  unfold invoke. destruct (m request) as [request' es]. simpl.
  by destruct (perform_all_frame es (set_heap <[q:=request']> w))
    as (-> & -> & -> & _ & -> & ->).
Qed.

(** The queue of a key after [_processPendingAcquireRequests]. *)
Lemma _process_requests key w :
  _acquireRequests (_processPendingAcquireRequests cfg key w) =
    match _acquireRequests w !! key with
    | Some (_ :: rest) => <[key := rest]> (_acquireRequests w)
    | Some [] => delete key (_acquireRequests w)
    | None => _acquireRequests w
    end.
Proof.
  unfold _processPendingAcquireRequests.
  destruct (_acquireRequests w !! key) as [[|q rest]|]; [done | | done].
  destruct (_acquire_frame key (set_requests <[key:=rest]> w)) as (Hr & _).
  destruct (_acquire _ _ _) as [p w']. simpl in *. by rewrite Hr.
Qed.

Lemma _process_counts key w :
  _activeResourceCounts (_processPendingAcquireRequests cfg key w) =
    _activeResourceCounts w.
Proof.
  unfold _processPendingAcquireRequests.
  destruct (_acquireRequests w !! key) as [[|q rest]|]; [done | | done].
  destruct (_acquire_frame key (set_requests <[key:=rest]> w))
    as (_ & Hc & _).
  destruct (_acquire _ _ _) as [p w']. simpl in *. by rewrite Hc.
Qed.


(** The callbacks waiting after [_processPendingAcquireRequests]: one more,
    for the head of the queue, when there is one. *)
Lemma _process_tasks key w :
  tasks (_processPendingAcquireRequests cfg key w) = tasks w ∨
  ∃ q rest p, _acquireRequests w !! key = Some (q :: rest) ∧
    tasks (_processPendingAcquireRequests cfg key w) =
      <[next w := Task p (ProcessThen q key)]> (tasks w).
Proof.
  unfold _processPendingAcquireRequests.
  destruct (_acquireRequests w !! key) as [[|q rest]|]; [by left | | by left].
  right. exists q, rest.
  destruct (_acquire_frame key (set_requests <[key:=rest]> w))
    as (_ & _ & _ & _ & Ht & _ & Hn).
  destruct (_acquire _ _ _) as [p w']. simpl in *. exists p.
  by rewrite Ht, Hn.
Qed.

Lemma _process_pools key w :
  ∀ k, is_Some (_pools w !! k) →
       is_Some (_pools (_processPendingAcquireRequests cfg key w) !! k).
Proof.
  intros k Hk. unfold _processPendingAcquireRequests.
  destruct (_acquireRequests w !! key) as [[|q rest]|]; [done | | done].
  destruct (_acquire_pools key (set_requests <[key:=rest]> w)) as [l Hl].
  destruct (_acquire _ _ _) as [p w']. simpl in *. rewrite Hl.
  destruct (decide (key = k)) as [->|];
    [by rewrite lookup_insert_eq | by rewrite lookup_insert_ne].
Qed.

End Frame.

(** ** The steps of the event loop, field by field *)

Section Steps.

Variable cfg : Config.

Lemma _release_counts key resource w :
  _activeResourceCounts (_release cfg key resource w) =
    resourceReleased key (_activeResourceCounts w).
Proof.
  unfold _release. rewrite _process_counts. simpl.
  by destruct (_pools w !! key); [destruct (_validate cfg resource) |].
Qed.

Lemma purge_frame key w :
  let w' := purge key w in
  _acquireRequests w' = _acquireRequests w ∧
  _activeResourceCounts w' = _activeResourceCounts w ∧
  heap w' = heap w ∧ timers w' = timers w ∧ tasks w' = tasks w ∧
  settled w' = settled w ∧ created w' = created w ∧ next w' = next w.
Proof. done. Qed.

Lemma purge_fold_frame keys w :
  let w' := foldr purge w keys in
  _acquireRequests w' = _acquireRequests w ∧
  _activeResourceCounts w' = _activeResourceCounts w ∧
  tasks w' = tasks w ∧ next w' = next w.
Proof.
  induction keys as [|k keys IH]; simpl; [done |].
  by destruct IH as (<- & <- & <- & <-).
Qed.

Lemma on_timeout_frame key q request w :
  let w' := on_timeout cfg key q request w in
  _pools w' = _pools w ∧
  _activeResourceCounts w' = _activeResourceCounts w ∧
  tasks w' = tasks w ∧ next w' = next w.
Proof.
  unfold on_timeout. simpl.
  destruct (PendingRequest.isCompleted request).
  - by destruct (_acquireRequests w !! key).
  - match goal with |- context [invoke ?m ?q ?r ?w0] =>
      destruct (invoke_frame m q r w0) as (-> & _ & -> & -> & ->) end.
    by destruct (_acquireRequests w !! key).
Qed.


(** A step changes the counters by at most one call of [resourceAcquired]
    or of [resourceReleased]. *)
Lemma step_counts e w w' :
  step cfg e w = Some w' →
  _activeResourceCounts w' = _activeResourceCounts w ∨
  ∃ key, _activeResourceCounts w' =
           resourceAcquired key (_activeResourceCounts w) ∨
         _activeResourceCounts w' =
           resourceReleased key (_activeResourceCounts w).
Proof.
  destruct e as [key|key r|key| |t r|t e|t|id]; simpl.
  - intros [= <-]. left. unfold acquire.
    destruct (_acquire_frame cfg key w) as (_ & Hc & _).
    by destruct (_acquire cfg key w) as [p w1].
  - intros [= <-]. right. exists key. right. apply _release_counts.
  - intros [= <-]. by left.
  - intros [= <-]. left. unfold purgeAll.
    by destruct (purge_fold_frame (elements (dom (_pools w))) w) as (_ & -> & _).
  - unfold settle. destruct (tasks w !! t) as [[[] k]|]; try done.
    intros [= <-]. by left.
  - unfold settle. destruct (tasks w !! t) as [[[] k]|]; try done.
    intros [= <-]. by left.
  - unfold run_task.
    destruct (tasks w !! t) as [[p [c key|q key]]|]; [| | done].
    + destruct p as [[r|]|e|]; intros [= <-]; simpl.
      * right. exists key. by left.
      * left. by destruct (_acquireRequests w !! key).
      * by left.
    + destruct p as [v|e|]; [| | done]; simpl;
        destruct (heap w !! q) as [request|]; try done;
        intros [= <-]; unfold process_then.
      * destruct v as [r|]; [| by left].
        destruct (PendingRequest.isCompleted request).
        -- right. exists key. right. by rewrite _release_counts.
        -- right. exists key. left.
           match goal with |- context [invoke ?m ?q ?r ?w0] =>
             by destruct (invoke_frame m q r w0) as (_ & _ & -> & _) end.
      * left.
        match goal with |- context [invoke ?m ?q ?r ?w0] =>
          by destruct (invoke_frame m q r w0) as (_ & _ & -> & _) end.
  - unfold fire. destruct (timers w !! id) as [key|]; [| done]. simpl.
    destruct (heap w !! id) as [request|]; [| done]. simpl.
    intros [= <-]. left.
    match goal with |- context [on_timeout ?c ?k ?q ?r ?w0] =>
      by destruct (on_timeout_frame k q r w0) as (_ & -> & _) end.
Qed.

Lemma resourceAcquired_positive key m :
  counts_positive m → counts_positive (resourceAcquired key m).
Proof.
  intros Hm k n. unfold resourceAcquired.
  destruct (decide (key = k)) as [->|Hne].
  - rewrite lookup_insert_eq. intros [= <-].
    destruct (m !! k) as [c|] eqn:Hk; simpl; [| lia].
    specialize (Hm k c Hk). lia.
  - rewrite lookup_insert_ne by done. apply Hm.
Qed.

Lemma resourceReleased_positive key m :
  counts_positive m → counts_positive (resourceReleased key m).
Proof.
  intros Hm k n. unfold resourceReleased.
  destruct (0 <? default 0 (m !! key) - 1)%Z eqn:Hpos.
  - destruct (decide (key = k)) as [->|Hne].
    + rewrite lookup_insert_eq. intros [= <-]. apply Z.ltb_lt in Hpos. lia.
    + rewrite lookup_insert_ne by done. apply Hm.
  - destruct (decide (key = k)) as [->|Hne].
    + by rewrite lookup_delete_eq.
    + rewrite lookup_delete_ne by done. apply Hm.
Qed.

Lemma step_counts_positive e w w' :
  step cfg e w = Some w' →
  counts_positive (_activeResourceCounts w) →
  counts_positive (_activeResourceCounts w').
Proof.
  intros Hstep Hw.
  destruct (step_counts e w w' Hstep) as [-> | (key & [-> | ->])];
    auto using resourceAcquired_positive, resourceReleased_positive.
Qed.

(** An invariant of the steps holds of every run. *)
Lemma run_invariant (P : Pool → Prop) :
  (∀ e w w', step cfg e w = Some w' → P w → P w') →
  ∀ es w w', run cfg es w = Some w' → P w → P w'.
Proof.
  intros Hstep es. induction es as [|e es IH]; intros w w'; simpl.
  - by intros [= <-].
  - destruct (step cfg e w) as [w1|] eqn:He; [| done]. simpl.
    intros Hrun Hw. eapply IH; [done |]. by eapply Hstep.
Qed.

Lemma reachable_counts_positive w :
  reachable cfg w → counts_positive (_activeResourceCounts w).
Proof.
  intros [es Hrun].
  eapply (run_invariant (λ w, counts_positive (_activeResourceCounts w)));
    [intros e w1 w2; apply step_counts_positive | done |].
  by intros k n.
Qed.

End Steps.

(** ** Idle-list entries and queues along the steps *)

Section Entries.

Variable cfg : Config.

Lemma _release_pools key resource w k :
  is_Some (_pools w !! k) →
  is_Some (_pools (_release cfg key resource w) !! k).
Proof.
  intros Hk. unfold _release. apply _process_pools. simpl.
  destruct (_pools w !! key) as [pool|] eqn:Hp; [| done].
  destruct (_validate cfg resource); simpl; [| done].
  destruct (decide (key = k)) as [->|];
    [by rewrite lookup_insert_eq | by rewrite lookup_insert_ne].
Qed.

Lemma _release_requests key resource w :
  _acquireRequests (_release cfg key resource w) =
    match _acquireRequests w !! key with
    | Some (_ :: rest) => <[key := rest]> (_acquireRequests w)
    | Some [] => delete key (_acquireRequests w)
    | None => _acquireRequests w
    end.
Proof.
  unfold _release. rewrite _process_requests. simpl.
  by destruct (_pools w !! key); [destruct (_validate cfg resource) |].
Qed.


Lemma _release_tasks key resource w :
  tasks (_release cfg key resource w) = tasks w ∨
  ∃ q rest p, _acquireRequests w !! key = Some (q :: rest) ∧
    tasks (_release cfg key resource w) =
      <[next w := Task p (ProcessThen q key)]> (tasks w).
Proof.
  unfold _release.
  match goal with |- context [_processPendingAcquireRequests _ _ ?w0] =>
    assert (tasks w0 = tasks w ∧ next w0 = next w ∧
            _acquireRequests w0 = _acquireRequests w) as (Ht & Hn & Hr)
      by (simpl; by destruct (_pools w !! key);
            [destruct (_validate cfg resource) |]);
    destruct (_process_tasks cfg key w0) as [H | (q & rest & p & Hq & H)]
  end.
  - left. by rewrite H.
  - right. exists q, rest, p. by rewrite H, Ht, Hn, <- Hr.
Qed.

(** Steps that do not purge a key keep its idle-list entry. *)
Lemma step_keeps_entry e w w' key :
  step cfg e w = Some w' → ¬ purges key e →
  is_Some (_pools w !! key) → is_Some (_pools w' !! key).
Proof.
  intros Hstep Hpurge Hin.
  destruct e as [k|k r|k| |t r|t e|t|id]; simpl in Hstep.
  - injection Hstep as <-. unfold acquire.
    destruct (_acquire_pools cfg k w) as [rest Hp].
    destruct (_acquire cfg k w) as [p w1]. simpl in *. rewrite Hp.
    destruct (decide (k = key)) as [->|];
      [by rewrite lookup_insert_eq | by rewrite lookup_insert_ne].
  - injection Hstep as <-. by apply _release_pools.
  - injection Hstep as <-. simpl. rewrite lookup_delete_ne; [done |].
    intros ->. apply Hpurge. by left.
  - exfalso. apply Hpurge. by right.
  - unfold settle in Hstep. destruct (tasks w !! t) as [[[] k]|]; try done.
    by injection Hstep as <-.
  - unfold settle in Hstep. destruct (tasks w !! t) as [[[] k]|]; try done.
    by injection Hstep as <-.
  - unfold run_task in Hstep.
    destruct (tasks w !! t) as [[p [c k|q k]]|]; [| | done].
    + destruct p as [[r|]|e|]; [| | | done]; injection Hstep as <-; simpl;
        [done | | done].
      by destruct (_acquireRequests w !! k).
    + destruct p as [v|e|]; [| | done]; simpl in Hstep;
        destruct (heap w !! q) as [request|]; try done;
        injection Hstep as <-; unfold process_then.
      * destruct v as [r|]; [| done].
        destruct (PendingRequest.isCompleted request).
        -- by apply _release_pools.
        -- match goal with |- context [invoke ?m ?q ?r ?w0] =>
             by destruct (invoke_frame m q r w0) as (-> & _) end.
      * match goal with |- context [invoke ?m ?q ?r ?w0] =>
          by destruct (invoke_frame m q r w0) as (-> & _) end.
  - unfold fire in Hstep. destruct (timers w !! id) as [k|]; [| done].
    destruct (heap w !! id) as [request|]; [| done].
    injection Hstep as <-.
    match goal with |- context [on_timeout ?c ?k ?q ?r ?w0] =>
      by destruct (on_timeout_frame c k q r w0) as (-> & _) end.
Qed.

Lemma acquire_makes_entry key w :
  is_Some (_pools (acquire cfg key w).2 !! key).
Proof.
  unfold acquire. destruct (_acquire_pools cfg key w) as [rest Hp].
  destruct (_acquire cfg key w) as [p w1]. simpl in *.
  by rewrite Hp, lookup_insert_eq.
Qed.

Lemma run_app es1 es2 w :
  run cfg (es1 ++ es2) w = run cfg es1 w ≫= run cfg es2.
Proof.
  revert w. induction es1 as [|e es1 IH]; intros w; simpl; [done |].
  destruct (step cfg e w) as [w1|]; simpl; [apply IH | done].
Qed.

Lemma run_keeps_entry es key :
  Forall (λ e, ¬ purges key e) es →
  ∀ w w', run cfg es w = Some w' →
  is_Some (_pools w !! key) → is_Some (_pools w' !! key).
Proof.
  induction 1 as [|e es He Hes IH]; intros w w'; simpl.
  - by intros [= <-].
  - destruct (step cfg e w) as [w1|] eqn:Hstep; [| done]. simpl.
    intros Hrun Hin. eapply IH; [done |]. by eapply step_keeps_entry.
Qed.

End Entries.

(** ** The pending queues along the steps *)

Section Queues.

Variable cfg : Config.








End Queues.

(** ** First in, first out *)

Section Fifo.

Variable cfg : Config.










End Fifo.

(** ** Completing a pending request *)

Section Completion.

Variable cfg : Config.

Lemma set_heap_id q request w :
  heap w !! q = Some request → set_heap <[q := request]> w = w.
Proof.
  intros H. destruct w. unfold set_heap. simpl in *. f_equal.
  by apply insert_id.
Qed.

(** [resolve] and [reject] on a completed request change nothing and call
    nothing. *)
Lemma completed_noop q request w a :
  heap w !! q = Some request → _completed request = true →
  a ≠ ByTimeout → ∀ key, attempt cfg key q a w = Some w.
Proof.
  intros Hq Hc Ha key. unfold attempt. rewrite Hq. simpl.
  destruct a as [r|e|]; [| | done];
    unfold invoke, PendingRequest.resolve, PendingRequest.reject;
    rewrite Hc; simpl; by rewrite set_heap_id.
Qed.

(** No attempt on a completed request settles anything or re-arms its
    timer. *)
Lemma completed_stays key q request w a :
  heap w !! q = Some request → _completed request = true →
  timers w !! _timeoutId request = None →
  ∃ w', attempt cfg key q a w = Some w' ∧
        heap w' !! q = Some request ∧ settled w' = settled w ∧
        timers w' !! _timeoutId request = None.
Proof.
  intros Hq Hc Ht.
  assert (a = ByTimeout ∨ a ≠ ByTimeout) as [->|Ha]
    by (destruct a; auto).
  - unfold attempt. rewrite Hq. simpl. eexists. split; [done |].
    unfold on_timeout, PendingRequest.isCompleted. rewrite Hc. simpl.
    destruct (_acquireRequests w !! key); simpl;
      (split; [done |]); (split; [done |]);
      (destruct (decide (q = _timeoutId request)) as [->|];
        [apply lookup_delete_eq | by rewrite lookup_delete_ne]).
  - exists w. by rewrite (completed_noop q request).
Qed.

Lemma attempts_completed key q request l :
  ∀ w, heap w !! q = Some request → _completed request = true →
  timers w !! _timeoutId request = None →
  ∃ w', attempts cfg key q l w = Some w' ∧
        heap w' !! q = Some request ∧ settled w' = settled w ∧
        timers w' !! _timeoutId request = None.
Proof.
  induction l as [|a l IH]; intros w Hq Hc Ht; simpl.
  - by exists w.
  - destruct (completed_stays key q request w a Hq Hc Ht)
      as (w1 & -> & Hq1 & Hs1 & Ht1). simpl.
    destruct (IH w1 Hq1 Hc Ht1) as (w2 & Hw2 & Hq2 & Hs2 & Ht2).
    exists w2. by rewrite Hs2.
Qed.

(** The first attempt on a pending request completes it. *)
Lemma first_attempt key q request w a :
  heap w !! q = Some request → _completed request = false →
  ∃ w', attempt cfg key q a w = Some w' ∧
        heap w' !! q = Some (PendingRequest.complete request) ∧
        settled w' = settled w ++ [(_promise request, outcome_of cfg a)] ∧
        timers w' !! _timeoutId request = None ∧
        (a = ByTimeout → q ∉ queue key w').
Proof.
  intros Hq Hc. unfold attempt. rewrite Hq. simpl. eexists. split; [done |].
  destruct a as [r|e|];
    unfold on_timeout, invoke, PendingRequest.isCompleted,
      PendingRequest.resolve, PendingRequest.reject;
    rewrite Hc; simpl.
  - by rewrite !lookup_insert_eq, lookup_delete_eq.
  - by rewrite !lookup_insert_eq, lookup_delete_eq.
  - unfold queue.
    destruct (_acquireRequests w !! key) as [l|] eqn:Hl; simpl;
      rewrite !lookup_insert_eq, lookup_delete_eq;
      (repeat split; [done..|]); intros _.
    + simpl. by intros [H _]%list_elem_of_filter.
    + rewrite ?Hl. simpl. apply not_elem_of_nil.
Qed.

(** C2.  Take a pending request that is not completed, and any sequence of
    attempts to complete it: calls of [resolve], calls of [reject], runs of
    its timer callback.  The first attempt completes it: the caller's
    promise is settled with the outcome of that attempt (for the timer, the
    timeout error with the configured duration), the timer is cancelled,
    and when the attempt is the timer's the request is out of the queue of
    its key.  The later attempts settle nothing, leave the request
    completed and the timer cancelled; a later [resolve] or [reject] leaves
    the whole state as it is. *)
Theorem pending_request_completes_once key q request w a rest :
  heap w !! q = Some request → _completed request = false →
  ∃ w1 w2,
    attempt cfg key q a w = Some w1 ∧
    attempts cfg key q rest w1 = Some w2 ∧
    settled w1 = settled w ++ [(_promise request, outcome_of cfg a)] ∧
    settled w2 = settled w1 ∧
    heap w1 !! q = Some (PendingRequest.complete request) ∧
    heap w2 !! q = Some (PendingRequest.complete request) ∧
    timers w1 !! _timeoutId request = None ∧
    timers w2 !! _timeoutId request = None ∧
    (a = ByTimeout → q ∉ queue key w1) ∧
    (∀ b, b ≠ ByTimeout → attempt cfg key q b w1 = Some w1) ∧
    (∀ b, b ≠ ByTimeout → attempt cfg key q b w2 = Some w2).
Proof.
  intros Hq Hc.
  destruct (first_attempt key q request w a Hq Hc)
    as (w1 & Hw1 & Hq1 & Hs1 & Ht1 & Hout).
  destruct (attempts_completed key q (PendingRequest.complete request)
              rest w1 Hq1 eq_refl Ht1) as (w2 & Hw2 & Hq2 & Hs2 & Ht2).
  exists w1, w2. repeat split; try done.
  - intros b Hb. by eapply completed_noop.
  - intros b Hb. by eapply completed_noop.
Qed.

End Completion.

(** ** Releasing *)

Section Releasing.

Variable cfg : Config.

Lemma _process_settled key w :
  settled (_processPendingAcquireRequests cfg key w) = settled w.
Proof.
  unfold _processPendingAcquireRequests.
  destruct (_acquireRequests w !! key) as [[|q rest]|]; [done | | done].
  destruct (_acquire_frame cfg key (set_requests <[key:=rest]> w))
    as (_ & _ & _ & _ & _ & Hs & _).
  destruct (_acquire _ _ _) as [p w']. simpl in *. by rewrite Hs.
Qed.

Lemma _release_settled key resource w :
  settled (_release cfg key resource w) = settled w.
Proof.
  unfold _release. rewrite _process_settled. simpl.
  by destruct (_pools w !! key); [destruct (_validate cfg resource) |].
Qed.

(** Releasing a valid resource for a key that has an idle-list entry: the
    resource goes on top of the idle list, from where the servicing of the
    oldest pending request, if there is one, takes it at once.  Nothing is
    destroyed. *)
Lemma _release_valid key resource pool w :
  _pools w !! key = Some pool → _validate cfg resource = true →
  let w' := _release cfg key resource w in
  destroyed w' = destroyed w ∧
  match queue key w with
  | q :: _ =>
      idle key w' = pool ∧
      tasks w' = <[next w := Task (Fulfilled (Some resource))
                               (ProcessThen q key)]> (tasks w)
  | [] => idle key w' = resource :: pool ∧ tasks w' = tasks w
  end.
Proof.
  intros Hp Hv. unfold _release, _processPendingAcquireRequests, queue, idle.
  rewrite Hp, Hv. simpl.
  destruct (_acquireRequests w !! key) as [[|q rest]|]; simpl;
    rewrite ?lookup_insert_eq; try done.
  unfold _acquire. simpl. rewrite lookup_insert_eq. simpl. rewrite Hv.
  simpl. by rewrite app_nil_r, lookup_insert_eq.
Qed.



(** C3.  When the callback of the pending-request servicing runs with a
    resource: if the request is already completed, what happens is exactly
    [_release] of that resource, so the active counter is not incremented,
    nothing is settled, and a resource that passes [_validate] for a key
    that has its idle-list entry is not destroyed but is either on top of
    the idle list or offered to the next pending request; if the request is
    still pending, it is resolved with the resource, the active counter
    goes up by one and the idle lists are not touched. *)
Theorem late_resource_is_released t q key r request w :
  tasks w !! t = Some (Task (Fulfilled (Some r)) (ProcessThen q key)) →
  heap w !! q = Some request →
  let w0 := set_tasks (delete t) w in
  (_completed request = true →
     let w' := _release cfg key r w0 in
     step cfg (Run t) w = Some w' ∧
     settled w' = settled w ∧
     _activeResourceCounts w' =
       resourceReleased key (_activeResourceCounts w) ∧
     ∀ pool, _pools w !! key = Some pool → _validate cfg r = true →
       destroyed w' = destroyed w ∧
       (idle key w' = r :: pool ∨
        idle key w' = pool ∧
        ∃ t' q', tasks w' !! t' =
                   Some (Task (Fulfilled (Some r)) (ProcessThen q' key)))) ∧
  (_completed request = false →
     let w' := invoke (PendingRequest.resolve r) q request
                 (set_counts (resourceAcquired key) w0) in
     step cfg (Run t) w = Some w' ∧
     settled w' = settled w ++ [(_promise request, Resolved r)] ∧
     heap w' !! q = Some (PendingRequest.complete request) ∧
     _activeResourceCounts w' =
       resourceAcquired key (_activeResourceCounts w) ∧
     activeResourceCount key w' = (activeResourceCount key w + 1)%Z ∧
     _pools w' = _pools w ∧ destroyed w' = destroyed w).
Proof.
  intros Ht Hq. simpl. split; intros Hc.
  - split; [| split; [| split]].
    + unfold run_task. rewrite Ht. simpl. rewrite Hq. simpl.
      unfold PendingRequest.isCompleted. by rewrite Hc.
    + by rewrite _release_settled.
    + by rewrite _release_counts.
    + intros pool Hp Hv.
      destruct (_release_valid key r pool (set_tasks (delete t) w) Hp Hv)
        as [Hd Hcase].
      split; [done |].
      destruct (queue key (set_tasks (delete t) w)) as [|q' l].
      * left. apply Hcase.
      * right. destruct Hcase as [Hi Htasks]. split; [done |].
        eexists _, q'. rewrite Htasks. apply lookup_insert_eq.
  - split.
    + unfold run_task. rewrite Ht. simpl. rewrite Hq. simpl.
      unfold PendingRequest.isCompleted. by rewrite Hc.
    + unfold invoke, PendingRequest.resolve. rewrite Hc. simpl.
      repeat split; [by rewrite lookup_insert_eq |].
      unfold activeResourceCount, resourceAcquired. simpl.
      by rewrite lookup_insert_eq.
Qed.

End Releasing.

(** ** Acquiring, purging and the per-key entries *)

Section Claims.

Variable cfg : Config.

(** C6.  A direct call of [acquire] that reaches the factory, whose promise
    is then rejected with [e]: the caller's promise fails with [e] and
    nothing else is settled; the active counters are what they were before
    the call, so the count of the key is unchanged and a key without a
    counter still has none.  In any state at all, the callback of [acquire]
    on a rejected promise only passes the error on. *)
Theorem factory_failure_propagates key e w :
  (_acquire cfg key w).1 = Unsettled →
  (∃ w', run cfg [Acquire key; Reject (S (next w)) e; Run (S (next w))] w
           = Some w' ∧
         settled w' = settled w ++ [(next w, Failed e)] ∧
         _activeResourceCounts w' = _activeResourceCounts w ∧
         activeResourceCount key w' = activeResourceCount key w) ∧
  (acquire cfg key w).1 = next w ∧
  (∀ t c w2,
     tasks w2 !! t = Some (Task (Rejected e) (AcquireThen c key)) →
     step cfg (Run t) w2 =
       Some (log_settle c (Failed e) (set_tasks (delete t) w2))).
Proof.
  intros Hfactory. split; [| split].
  - simpl. unfold acquire.
    destruct (_acquire_frame cfg key w) as (_ & Hc & _ & _ & _ & Hs & Hn).
    destruct (_acquire cfg key w) as [p w1]. simpl in *. subst p.
    unfold settle. simpl. rewrite Hn, lookup_insert_eq. simpl.
    unfold run_task. simpl. rewrite lookup_insert_eq. simpl.
    eexists. split; [done |]. simpl. unfold activeResourceCount. simpl.
    by rewrite Hc, Hs.
  - unfold acquire.
    destruct (_acquire_frame cfg key w) as (_ & _ & _ & _ & _ & _ & Hn).
    by destruct (_acquire cfg key w) as [p w1].
  - intros t c w2 Ht. simpl. unfold run_task. by rewrite Ht.
Qed.

(** C7, as the code has it.  [purge] passes every idle resource of the key
    to [_destroy], removes the idle-list entry of the key, so that [has] is
    false, and touches nothing else.  The next [_acquire] for the key
    finds no idle resource and destroys nothing: it calls the factory,
    unless the key is at its bound, in which case it returns [null] and the
    caller is queued. *)
Theorem purge_destroys_idle_only key w :
  let w' := purge key w in
  destroyed w' = destroyed w ++ idle key w ∧
  _pools w' = delete key (_pools w) ∧
  has key w' = false ∧
  _acquireRequests w' = _acquireRequests w ∧
  _activeResourceCounts w' = _activeResourceCounts w ∧
  heap w' = heap w ∧ timers w' = timers w ∧ tasks w' = tasks w ∧
  settled w' = settled w ∧ created w' = created w ∧ next w' = next w ∧
  let '(p, w'') := _acquire cfg key w' in
  destroyed w'' = destroyed w' ∧
  if negb (_maxSize cfg =? 0)%Z
     && (_maxSize cfg <=? activeResourceCount key w)%Z
  then p = Fulfilled None ∧ created w'' = created w
  else p = Unsettled ∧ created w'' = created w ++ [key].
Proof.
  simpl. repeat split.
  - unfold has. simpl. rewrite lookup_delete_eq.
    apply bool_decide_eq_false. by intros [? ?].
  - unfold _acquire. simpl. rewrite lookup_delete_eq. simpl.
    unfold activeResourceCount. simpl.
    destruct (negb _ && _); simpl; by rewrite app_nil_r.
Qed.


(** C9, as the code has it.  In every state the pool can reach, every
    stored active counter is at least 1: a key with no active resource has
    no active-counter entry. *)
Theorem idle_key_keeps_no_counter key w :
  reachable cfg w →
  (∀ n, _activeResourceCounts w !! key = Some n → (1 ≤ n)%Z) ∧
  (activeResourceCount key w = 0%Z →
   _activeResourceCounts w !! key = None).
Proof.
  intros Hreach. pose proof (reachable_counts_positive cfg w Hreach) as Hpos.
  split; [apply Hpos |]. unfold activeResourceCount.
  destruct (_activeResourceCounts w !! key) as [n|] eqn:Hn; [| done].
  simpl. intros ->. specialize (Hpos key 0%Z Hn). lia.
Qed.

(** C10.  In any run, from any state, once [acquire] has been called for a
    key and no later event purges the key ([purge] of that key, or
    [purgeAll]), [has] is true of the key, whatever became of the
    acquisitions. *)
Theorem has_after_acquire key before later w0 w :
  run cfg (before ++ Acquire key :: later) w0 = Some w →
  Forall (λ e, ¬ purges key e) later →
  has key w = true.
Proof.
  rewrite run_app. intros Hrun Hlater.
  destruct (run cfg before w0) as [w1|]; [| done]. simpl in Hrun.
  apply bool_decide_eq_true.
  eapply run_keeps_entry; [done.. |]. apply acquire_makes_entry.
Qed.

End Claims.

(** * Runs *)

(** C1.  With [maxSize] 1, two callers ask for the same key before the
    factory has answered the first.  Both calls of [_acquire] read the
    counter while it is still 0, because [resourceAcquired] only runs in the
    callback of [acquire]; both call the factory, both callers get a
    resource, and the active count of the key is 2. *)
Theorem maxSize_exceeded :
  run one_at_a_time two_at_once empty_pool
    = Some (after one_at_a_time two_at_once) ∧
  _maxSize one_at_a_time = 1%Z ∧
  activeResourceCount "A" (after one_at_a_time two_at_once) = 2%Z ∧
  created (after one_at_a_time two_at_once) = ["A"; "A"] ∧
  settled (after one_at_a_time two_at_once)
    = [(0, Resolved 7); (2, Resolved 8)].
Proof. vm_compute. by repeat split. Qed.

(** C2 on a queued request: request 4 of "A" times out, then is resolved and
    rejected. *)
Lemma pending_request_completes_once_witness :
  (heap (after one_at_a_time two_waiting) !! 4 = Some (mkRequest 2 4 false) ∧
   _completed (mkRequest 2 4 false) = false) ∧
  ∃ w1 w2,
    attempt one_at_a_time "A" 4 ByTimeout (after one_at_a_time two_waiting)
      = Some w1 ∧
    attempts one_at_a_time "A" 4 [ByResolve 7; ByReject (FactoryError 0)] w1
      = Some w2 ∧
    settled w1 = settled (after one_at_a_time two_waiting)
                   ++ [(2, Failed (AcquisitionTimeout 60000))] ∧
    settled w2 = settled w1 ∧
    heap w1 !! 4 = Some (mkRequest 2 4 true) ∧
    heap w2 !! 4 = Some (mkRequest 2 4 true) ∧
    timers w1 !! 4 = None ∧ timers w2 !! 4 = None ∧
    (ByTimeout = ByTimeout → 4 ∉ queue "A" w1) ∧
    (∀ b, b ≠ ByTimeout → attempt one_at_a_time "A" 4 b w1 = Some w1) ∧
    (∀ b, b ≠ ByTimeout → attempt one_at_a_time "A" 4 b w2 = Some w2).
Proof.
  assert (heap (after one_at_a_time two_waiting) !! 4
          = Some (mkRequest 2 4 false)) as Hheap by (vm_compute; reflexivity).
  split; [by split |].
  exact (pending_request_completes_once one_at_a_time "A" 4
           (mkRequest 2 4 false) (after one_at_a_time two_waiting) ByTimeout
           [ByResolve 7; ByReject (FactoryError 0)] Hheap eq_refl).
Defined.

(** C3 on a request that timed out while the factory was creating: resource
    9 arrives for the completed request 4 and ends up idle. *)
Lemma late_resource_is_released_witness :
  (tasks (after one_at_a_time (timed_out_while_creating ++ [Fulfil 5 9])) !! 5
     = Some (Task (Fulfilled (Some 9)) (ProcessThen 4 "A")) ∧
   heap (after one_at_a_time (timed_out_while_creating ++ [Fulfil 5 9])) !! 4
     = Some (mkRequest 2 4 true)) ∧
  step one_at_a_time (Run 5)
    (after one_at_a_time (timed_out_while_creating ++ [Fulfil 5 9]))
  = Some (_release one_at_a_time "A" 9
            (set_tasks (delete 5)
               (after one_at_a_time
                  (timed_out_while_creating ++ [Fulfil 5 9])))).
Proof.
  assert (tasks (after one_at_a_time
                   (timed_out_while_creating ++ [Fulfil 5 9])) !! 5
          = Some (Task (Fulfilled (Some 9)) (ProcessThen 4 "A"))) as Htask
    by (vm_compute; reflexivity).
  assert (heap (after one_at_a_time
                  (timed_out_while_creating ++ [Fulfil 5 9])) !! 4
          = Some (mkRequest 2 4 true)) as Hheap by (vm_compute; reflexivity).
  split; [by split |].
  exact (proj1
    (proj1 (late_resource_is_released one_at_a_time 5 4 "A" 9
              (mkRequest 2 4 true)
              (after one_at_a_time (timed_out_while_creating ++ [Fulfil 5 9]))
              Htask Hheap) eq_refl)).
Defined.


(** C6 on a pool that has seen nothing: the factory fails the first caller
    of "B". *)
Lemma factory_failure_propagates_witness :
  (_acquire one_at_a_time "B" empty_pool).1 = Unsettled ∧
  ∃ w', run one_at_a_time
          [Acquire "B"; Reject 1 (FactoryError 3); Run 1] empty_pool
          = Some w' ∧
        settled w' = [(0, Failed (FactoryError 3))] ∧
        _activeResourceCounts w' = ∅ ∧
        activeResourceCount "B" w' = 0%Z.
Proof.
  assert ((_acquire one_at_a_time "B" empty_pool).1 = Unsettled) as Hfactory
    by (vm_compute; reflexivity).
  split; [done |].
  exact (proj1 (factory_failure_propagates one_at_a_time "B" (FactoryError 3)
                  empty_pool Hfactory)).
Defined.

(** C4 as stated fails on a resource that comes from the factory: it is
    handed to the caller without [_validate] being asked.  Here resource 7 is
    created for the first caller of "A" and does not pass [_validate]. *)
Lemma created_resource_not_validated :
  run seven_is_broken one_active empty_pool
    = Some (after seven_is_broken one_active) ∧
  settled (after seven_is_broken one_active) = [(0, Resolved 7)] ∧
  _validate seven_is_broken 7 = false ∧
  destroyed (after seven_is_broken one_active) = [].
Proof. vm_compute. by repeat split. Qed.

(** C7 as stated fails at the bound: with 7 active and [maxSize] 1, "A" is
    purged and the next [acquire] does not call the factory; its promise is
    [null] and the caller is about to be queued. *)
Lemma acquire_after_purge_may_queue :
  run one_at_a_time (one_active ++ [Purge "A"]) empty_pool
    = Some (after one_at_a_time (one_active ++ [Purge "A"])) ∧
  has "A" (after one_at_a_time (one_active ++ [Purge "A"])) = false ∧
  (_acquire one_at_a_time "A"
     (after one_at_a_time (one_active ++ [Purge "A"]))).1 = Fulfilled None ∧
  created (after one_at_a_time (one_active ++ [Purge "A"; Acquire "A"]))
    = created (after one_at_a_time (one_active ++ [Purge "A"])) ∧
  tasks (after one_at_a_time (one_active ++ [Purge "A"; Acquire "A"])) !! 3
    = Some (Task (Fulfilled None) (AcquireThen 2 "A")).
Proof. vm_compute. by repeat split. Qed.


(** C9 as stated fails: after this run "A" has no idle resource, no active
    resource and no pending request, no callback and no timer is waiting,
    and yet "A" keeps an (empty) idle-list entry and an (empty) queue
    entry. *)
Lemma empty_entries_are_kept :
  run one_at_a_time left_behind empty_pool
    = Some (after one_at_a_time left_behind) ∧
  idle "A" (after one_at_a_time left_behind) = [] ∧
  activeResourceCount "A" (after one_at_a_time left_behind) = 0%Z ∧
  queue "A" (after one_at_a_time left_behind) = [] ∧
  tasks (after one_at_a_time left_behind) = ∅ ∧
  timers (after one_at_a_time left_behind) = ∅ ∧
  has "A" (after one_at_a_time left_behind) = true ∧
  _pools (after one_at_a_time left_behind) !! "A" = Some [] ∧
  _acquireRequests (after one_at_a_time left_behind) !! "A" = Some [].
Proof. vm_compute. by repeat split. Qed.

(** C9, amended, on the same run. *)
Lemma idle_key_keeps_no_counter_witness :
  reachable one_at_a_time (after one_at_a_time left_behind) ∧
  (activeResourceCount "A" (after one_at_a_time left_behind) = 0%Z →
   _activeResourceCounts (after one_at_a_time left_behind) !! "A" = None).
Proof.
  assert (reachable one_at_a_time (after one_at_a_time left_behind)) as Hreach
    by (exists left_behind; vm_compute; reflexivity).
  split; [exact Hreach |].
  exact (proj2 (idle_key_keeps_no_counter one_at_a_time "A"
                  (after one_at_a_time left_behind) Hreach)).
Defined.

(** C10 on a key whose only acquisition failed, with another key purged
    afterwards. *)
Lemma has_after_acquire_witness :
  (run one_at_a_time
     ([] ++ Acquire "B" :: [Reject 1 (FactoryError 3); Run 1; Purge "A"])
     empty_pool
   = Some (after one_at_a_time
             [Acquire "B"; Reject 1 (FactoryError 3); Run 1; Purge "A"]) ∧
   Forall (λ e, ¬ purges "B" e)
     [Reject 1 (FactoryError 3); Run 1; Purge "A"]) ∧
  has "B" (after one_at_a_time
             [Acquire "B"; Reject 1 (FactoryError 3); Run 1; Purge "A"])
  = true.
Proof.
  assert (run one_at_a_time
            ([] ++ Acquire "B" :: [Reject 1 (FactoryError 3); Run 1; Purge "A"])
            empty_pool
          = Some (after one_at_a_time
                    [Acquire "B"; Reject 1 (FactoryError 3); Run 1; Purge "A"]))
    as Hrun by (vm_compute; reflexivity).
  assert (Forall (λ e, ¬ purges "B" e)
            [Reject 1 (FactoryError 3); Run 1; Purge "A"]) as Hlater
    by (repeat constructor; intros [H | H]; discriminate H).
  split; [exact (conj Hrun Hlater) |].
  exact (has_after_acquire one_at_a_time "B" []
           [Reject 1 (FactoryError 3); Run 1; Purge "A"] empty_pool _
           Hrun Hlater).
Defined.

(** * Further properties of the methods *)

(** ** The counters *)

Section Counters.

Variable cfg : Config.

(** Counting a resource in and out again restores the counters, provided no
    stored counter is below 1 (as in every state the pool reaches). *)
Lemma resourceReleased_resourceAcquired key m :
  counts_positive m → resourceReleased key (resourceAcquired key m) = m.
Proof.
  intros Hm. unfold resourceReleased, resourceAcquired.
  rewrite lookup_insert_eq. simpl.
  destruct (m !! key) as [n|] eqn:Hn; simpl.
  - specialize (Hm key n Hn).
    replace (n + 1 - 1)%Z with n by lia.
    destruct (0 <? n)%Z eqn:Hpos; [| apply Z.ltb_ge in Hpos; lia].
    by rewrite insert_insert_eq, insert_id.
  - simpl. by rewrite delete_insert_eq, delete_id.
Qed.

(** The count of a key after [resourceReleased]: one less, but never below
    zero; the other keys keep theirs. *)
Lemma resourceReleased_count key m k :
  default 0%Z (resourceReleased key m !! k) =
    if decide (k = key) then Z.max 0 (default 0%Z (m !! key) - 1)
    else default 0%Z (m !! k).
Proof.
  unfold resourceReleased. destruct (decide (k = key)) as [->|Hne].
  - destruct (0 <? default 0 (m !! key) - 1)%Z eqn:Hpos.
    + rewrite lookup_insert_eq. simpl. apply Z.ltb_lt in Hpos. lia.
    + rewrite lookup_delete_eq. simpl. apply Z.ltb_ge in Hpos. lia.
  - destruct (0 <? default 0 (m !! key) - 1)%Z;
      [by rewrite lookup_insert_ne | by rewrite lookup_delete_ne].
Qed.

(** X1.  In a state the pool can reach, handing a resource to a caller and
    releasing one for the same key leaves the active counters exactly as
    they were. *)
Theorem acquire_release_restores_counters key c r r' w :
  reachable cfg w →
  _activeResourceCounts
    (_release cfg key r' (acquire_then c key (Some r) w))
  = _activeResourceCounts w.
Proof.
  intros Hreach. rewrite _release_counts. simpl.
  apply resourceReleased_resourceAcquired.
  by apply (reachable_counts_positive cfg).
Qed.

(** X2.  In a state the pool can reach no active count is negative, and a
    release lowers the count of its key by one but not below zero, also
    when nothing was active for the key; the counts of the other keys stay. *)
Theorem release_never_counts_below_zero key r k w :
  reachable cfg w →
  (0 ≤ activeResourceCount k w)%Z ∧
  activeResourceCount k (_release cfg key r w) =
    if decide (k = key) then Z.max 0 (activeResourceCount key w - 1)
    else activeResourceCount k w.
Proof.
  intros Hreach. split.
  - pose proof (reachable_counts_positive cfg w Hreach k) as Hpos.
    unfold activeResourceCount.
    destruct (_activeResourceCounts w !! k) as [n|]; simpl; [| done].
    specialize (Hpos n eq_refl). lia.
  - unfold activeResourceCount. rewrite _release_counts.
    apply resourceReleased_count.
Qed.

End Counters.

(** ** Purging *)

Section Purging.

Variable cfg : Config.




(** X4.  [purge] of a key that has no idle-list entry changes nothing and
    destroys nothing; hence purging twice is purging once. *)
Theorem purge_missing_key key w :
  (_pools w !! key = None → purge key w = w) ∧
  purge key (purge key w) = purge key w.
Proof.
  assert (∀ w0, _pools w0 !! key = None → purge key w0 = w0) as Hnone.
  { intros w0 H. destruct w0. unfold purge, destroy_all, set_pools.
    simpl in *. rewrite H. simpl. f_equal; [by apply delete_id |].
    apply app_nil_r. }
  split; [apply Hnone |]. apply Hnone. simpl. apply lookup_delete_eq.
Qed.

End Purging.

(** ** Calls that follow one another *)

Section Sequences.

Variable cfg : Config.

(** [_acquire] when the idle list of the key has a valid resource on top. *)
Lemma _acquire_top key resource pool w :
  _pools w !! key = Some (resource :: pool) →
  _validate cfg resource = true →
  _acquire cfg key w =
    (Fulfilled (Some resource),
     destroy_all [] (set_pools <[key := pool]> w)).
Proof. intros Hp Hv. unfold _acquire. rewrite Hp. simpl. by rewrite Hv. Qed.

(** Releasing a valid resource when nobody waits. *)
Lemma _release_idle key r l w :
  _pools w !! key = Some l → _validate cfg r = true → queue key w = [] →
  _pools (_release cfg key r w) !! key = Some (r :: l) ∧
  queue key (_release cfg key r w) = [] ∧
  destroyed (_release cfg key r w) = destroyed w ∧
  created (_release cfg key r w) = created w.
Proof.
  intros Hl Hv Hq. unfold queue in *.
  unfold _release, _processPendingAcquireRequests. rewrite Hl, Hv.
  cbn [negb set_pools set_counts _acquireRequests].
  destruct (_acquireRequests w !! key) as [[|q rest]|] eqn:Hr;
    [| done |]; cbn; rewrite ?lookup_insert_eq, ?lookup_delete_eq, ?Hr; done.
Qed.

Lemma _acquire_top_fields key r pool w :
  _pools w !! key = Some (r :: pool) → _validate cfg r = true →
  (_acquire cfg key w).1 = Fulfilled (Some r) ∧
  _pools (_acquire cfg key w).2 !! key = Some pool ∧
  destroyed (_acquire cfg key w).2 = destroyed w ∧
  created (_acquire cfg key w).2 = created w.
Proof.
  intros Hp Hv. rewrite (_acquire_top key r pool) by done. cbn.
  by rewrite lookup_insert_eq, app_nil_r.
Qed.

(** X5.  The idle list is a stack: of two valid resources released one after
    the other (nobody waiting), the next two calls of [_acquire] return the
    one released last first; nothing is destroyed or created on the way and
    the idle list is then what it was. *)
Theorem idle_list_is_a_stack key r1 r2 pool w :
  _pools w !! key = Some pool →
  _validate cfg r1 = true → _validate cfg r2 = true →
  queue key w = [] →
  let w2 := _release cfg key r2 (_release cfg key r1 w) in
  idle key w2 = r2 :: r1 :: pool ∧
  (_acquire cfg key w2).1 = Fulfilled (Some r2) ∧
  (_acquire cfg key (_acquire cfg key w2).2).1 = Fulfilled (Some r1) ∧
  idle key (_acquire cfg key (_acquire cfg key w2).2).2 = pool ∧
  destroyed (_acquire cfg key (_acquire cfg key w2).2).2 = destroyed w ∧
  created (_acquire cfg key (_acquire cfg key w2).2).2 = created w.
Proof.
  intros Hp Hv1 Hv2 Hq. cbv zeta.
  destruct (_release_idle key r1 pool w Hp Hv1 Hq) as (Hp1 & Hq1 & Hd1 & Hc1).
  generalize dependent (_release cfg key r1 w). intros w1 Hp1 Hq1 Hd1 Hc1.
  destruct (_release_idle key r2 _ w1 Hp1 Hv2 Hq1) as (Hp2 & _ & Hd2 & Hc2).
  generalize dependent (_release cfg key r2 w1). intros w2 Hp2 Hd2 Hc2.
  destruct (_acquire_top_fields key r2 _ w2 Hp2 Hv2) as (Ha3 & Hp3 & Hd3 & Hc3).
  generalize dependent (_acquire cfg key w2). intros [p3 w3] Ha3 Hp3 Hd3 Hc3.
  cbn [fst snd] in *.
  destruct (_acquire_top_fields key r1 _ w3 Hp3 Hv1) as (Ha4 & Hp4 & Hd4 & Hc4).
  generalize dependent (_acquire cfg key w3). intros [p4 w4] Ha4 Hp4 Hd4 Hc4.
  cbn [fst snd] in *. unfold idle. rewrite Hp2, Hp4. cbn [default from_option].
  repeat split; congruence.
Qed.


(** The state after the callback of [acquire] has queued a request. *)
Lemma enqueue_fields c key w :
  let w' := acquire_then c key None w in
  _acquireRequests w' = <[key := queue key w ++ [next w]]> (_acquireRequests w) ∧
  heap w' = <[next w := mkRequest c (next w) false]> (heap w) ∧
  timers w' = <[next w := key]> (timers w) ∧
  tasks w' = tasks w ∧ settled w' = settled w ∧
  _activeResourceCounts w' = _activeResourceCounts w ∧
  created w' = created w.
Proof.
  unfold acquire_then, queue.
  destruct (_acquireRequests w !! key) as [l|] eqn:Hl; cbn.
  - by rewrite Hl.
  - by rewrite lookup_insert_eq, insert_insert_eq.
Qed.

(** The state after the timer of a pending request has fired. *)
Lemma fire_fields id key request w :
  timers w !! id = Some key → heap w !! id = Some request →
  _completed request = false →
  ∃ w', fire cfg id w = Some w' ∧
        settled w' = settled w ++
          [(_promise request,
            Failed (AcquisitionTimeout (_acquisitionTimeout cfg)))] ∧
        queue key w' = filter (λ item, item ≠ id) (queue key w) ∧
        timers w' = delete (_timeoutId request) (delete id (timers w)) ∧
        _activeResourceCounts w' = _activeResourceCounts w ∧
        created w' = created w.
Proof.
  intros Ht Hh Hc.
  exists (on_timeout cfg key id request (set_timers (delete id) w)).
  split; [unfold fire; by rewrite Ht, Hh |].
  unfold on_timeout, PendingRequest.isCompleted, invoke,
    PendingRequest.reject, queue. rewrite Hc.
  simpl.
  destruct (_acquireRequests w !! key) as [l|] eqn:Hl; simpl;
    rewrite ?lookup_insert_eq, ?Hl; done.
Qed.

(** X7.  A caller that finds the key at its bound and is not served in time:
    [acquire], its callback and then the timer leave the caller with the
    timeout error of the configured duration and nothing else settled; the
    counters are untouched, the factory is not called, and the request is
    not left in the queue. *)
Theorem acquire_at_bound_times_out key w :
  (_acquire cfg key w).1 = Fulfilled None →
  ∃ w', run cfg [Acquire key; Run (S (next w)); Timeout (S (S (next w)))] w
          = Some w' ∧
        settled w' = settled w ++
          [(next w, Failed (AcquisitionTimeout (_acquisitionTimeout cfg)))] ∧
        _activeResourceCounts w' = _activeResourceCounts w ∧
        created w' = created w ∧
        queue key w' =
          filter (λ item, item ≠ S (S (next w))) (queue key w) ∧
        timers w' !! S (S (next w)) = None.
Proof.
  intros Hnull.
  (* the call *)
  assert (∃ w1, step cfg (Acquire key) w = Some w1 ∧
            tasks w1 !! S (next w)
              = Some (Task (Fulfilled None) (AcquireThen (next w) key)) ∧
            next w1 = S (S (next w)) ∧
            _acquireRequests w1 = _acquireRequests w ∧
            settled w1 = settled w ∧
            _activeResourceCounts w1 = _activeResourceCounts w ∧
            created w1 = created w) as (w1 & Hs1 & Ht1 & Hn1 & Hr1 & Hse1 & Hc1 & Hcr1).
  { eexists. split; [reflexivity |]. unfold acquire.
    destruct (_acquire_frame cfg key w) as (Hr & Hc & _ & _ & Hk & Hs & Hn).
    assert (created (_acquire cfg key w).2 = created w) as Hcr.
    { destruct (_acquire_unfold cfg key w) as (found & l & dead & _ & Hacq).
      cbv zeta in Hacq. rewrite Hacq in Hnull |- *.
      by destruct found; [| destruct (negb _ && _)]. }
    destruct (_acquire cfg key w) as [p w0]. cbn in *. subst p.
    rewrite Hn, lookup_insert_eq. by rewrite Hr, Hc, Hs, Hcr. }
  (* its callback *)
  assert (∃ w2, step cfg (Run (S (next w))) w1 = Some w2 ∧
            w2 = acquire_then (next w) key None
                   (set_tasks (delete (S (next w))) w1)) as (w2 & Hs2 & Hw2).
  { eexists. split; [| reflexivity]. cbn [step]. unfold run_task.
    by rewrite Ht1. }
  destruct (enqueue_fields (next w) key (set_tasks (delete (S (next w))) w1))
    as (Hr2 & Hh2 & Hti2 & _ & Hse2 & Hc2 & Hcr2).
  rewrite <- Hw2 in Hr2, Hh2, Hti2, Hse2, Hc2, Hcr2. cbn in Hr2, Hh2, Hti2, Hse2, Hc2, Hcr2.
  unfold queue in Hr2. cbn in Hr2. rewrite Hn1 in Hr2, Hh2, Hti2.
  (* the timer *)
  destruct (fire_fields (S (S (next w))) key
              (mkRequest (next w) (S (S (next w))) false) w2)
    as (w3 & Hs3 & Hse3 & Hq3 & Hti3 & Hc3 & Hcr3);
    [by rewrite Hti2, lookup_insert_eq | by rewrite Hh2, lookup_insert_eq
    | done |].
  exists w3. split.
  { cbn [run]. rewrite Hs1. cbn [mbind option_bind]. rewrite Hs2.
    cbn [mbind option_bind]. cbn [step]. by rewrite Hs3. }
  rewrite Hse3, Hse2, Hse1, Hc3, Hc2, Hc1, Hcr3, Hcr2, Hcr1, Hq3, Hti3.
  repeat split; try done.
  - unfold queue at 1. rewrite Hr2, lookup_insert_eq.
    cbn [default from_option id]. rewrite Hr1. fold (queue key w).
    by rewrite filter_app, filter_cons_False, filter_nil, app_nil_r
      by (intros H; by apply H).
  - cbn. apply lookup_delete_eq.
Qed.

End Sequences.

(** ** The bound when nothing else is in flight *)

Section Bound.

Variable cfg : Config.

(** The state [acquire] leaves, by the outcome of the idle loop. *)
Lemma acquire_fields key w :
  ∃ found rest dead p,
    idle key w = dead ++ option_list found ++ rest ∧
    (found = None → rest = []) ∧
    p = match found with
        | Some resource => Fulfilled (Some resource)
        | None => if negb (_maxSize cfg =? 0)%Z
                     && (_maxSize cfg <=? activeResourceCount key w)%Z
                  then Fulfilled None else Unsettled
        end ∧
    let w' := (acquire cfg key w).2 in
    tasks w' = <[S (next w) := Task p (AcquireThen (next w) key)]> (tasks w) ∧
    _pools w' = <[key := rest]> (_pools w) ∧
    _activeResourceCounts w' = _activeResourceCounts w.
Proof.
  destruct (_acquire_unfold cfg key w) as (found & rest & dead & Hloop & Hacq).
  exists found, rest, dead. eexists. split; [by apply (pop_idle_split cfg) |].
  split; [intros ->; by eapply pop_idle_exhausted |].
  split; [reflexivity |]. unfold acquire. simpl in Hacq. rewrite Hacq.
  by destruct found; [| destruct (negb _ && _)].
Qed.

Lemma acquire_then_fields c key v w :
  _pools (acquire_then c key v w) = _pools w ∧
  _activeResourceCounts (acquire_then c key v w) =
    match v with
    | Some _ => resourceAcquired key (_activeResourceCounts w)
    | None => _activeResourceCounts w
    end.
Proof.
  destruct v as [r|]; simpl; [done |].
  by destruct (_acquireRequests w !! key).
Qed.

Lemma resourceAcquired_count key m k :
  default 0%Z (resourceAcquired key m !! k) =
    if decide (k = key) then (default 0%Z (m !! key) + 1)%Z
    else default 0%Z (m !! k).
Proof.
  unfold resourceAcquired. destruct (decide (k = key)) as [->|Hne];
    [by rewrite lookup_insert_eq | by rewrite lookup_insert_ne].
Qed.

Local Opaque acquire_then.

(** X8.  With a bound configured, as long as the active and the idle
    resources of a key together are within it: one acquisition that runs
    from the call to the end of its callback with nothing in between keeps
    them within it, and so does the release of an active resource when
    nobody waits.  (The count is then within the bound.) *)
Theorem guard_keeps_the_bound_when_alone key w :
  (0 < _maxSize cfg)%Z → within_bound cfg key w →
  (∀ es w', acquisition key (S (next w)) es → run cfg es w = Some w' →
            within_bound cfg key w' ∧
            (activeResourceCount key w' ≤ _maxSize cfg)%Z) ∧
  (∀ r, (1 ≤ activeResourceCount key w)%Z → queue key w = [] →
        within_bound cfg key (_release cfg key r w)).
Proof.
  intros Hmax Hw. unfold within_bound in *. split.
  - intros es w' Hes Hrun.
    cut (activeResourceCount key w' + Z.of_nat (length (idle key w'))
         ≤ _maxSize cfg)%Z; [lia |].
    destruct (acquire_fields key w)
      as (found & rest & dead & p & Hsplit & Hrest & Hp & Ht & Hpools & Hc).
    rewrite Hsplit, !length_app in Hw.
    assert (∀ c v w0,
              _pools w0 = _pools (acquire cfg key w).2 →
              _activeResourceCounts w0
                = _activeResourceCounts (acquire cfg key w).2 →
              (∀ r, v = Some r → found = Some r ∨
                      (found = None ∧
                       (activeResourceCount key w < _maxSize cfg)%Z)) →
              (activeResourceCount key (acquire_then c key v w0)
               + Z.of_nat (length (idle key (acquire_then c key v w0)))
               ≤ _maxSize cfg)%Z) as Hthen.
    { intros c v w0 Hp0 Hc0 Hv. unfold activeResourceCount, idle.
      destruct (acquire_then_fields c key v w0) as [-> ->].
      rewrite Hp0, Hc0, Hpools, Hc, lookup_insert_eq. simpl.
      destruct v as [r|].
      - rewrite resourceAcquired_count, decide_True by done.
        unfold activeResourceCount in *.
        destruct (Hv r eq_refl) as [-> | [-> Hlt]]; simpl in *; [lia |].
        rewrite (Hrest eq_refl). simpl. lia.
      - unfold activeResourceCount in *. lia. }
    destruct Hes as [-> | [[r ->] | [e ->]]];
      cbn -[acquire acquire_then] in Hrun.
    + unfold run_task in Hrun. rewrite Ht, lookup_insert_eq in Hrun.
      destruct p as [v|e|]; [| | done]; cbn -[acquire acquire_then] in Hrun.
      * injection Hrun as <-. apply Hthen; try done.
        intros r ->. destruct found as [r'|]; [left; congruence |].
        by destruct (negb _ && _).
      * by destruct found; [| destruct (negb _ && _)].
    + unfold settle in Hrun. rewrite Ht, lookup_insert_eq in Hrun.
      destruct p as [v|e|]; [done | done |].
      cbn -[acquire acquire_then] in Hrun.
      unfold run_task in Hrun. cbn -[acquire acquire_then] in Hrun.
      rewrite lookup_insert_eq in Hrun. cbn -[acquire acquire_then] in Hrun.
      injection Hrun as <-. apply Hthen; try done.
      intros ? [= <-]. right. destruct found; [done |]. split; [done |].
      destruct (_maxSize cfg =? 0)%Z eqn:H0; [apply Z.eqb_eq in H0; lia |].
      destruct (_maxSize cfg <=? activeResourceCount key w)%Z eqn:Hle;
        [done |]. apply Z.leb_gt in Hle. lia.
    + unfold settle in Hrun. rewrite Ht, lookup_insert_eq in Hrun.
      destruct p as [v|e'|]; [done | done |].
      cbn -[acquire acquire_then] in Hrun.
      unfold run_task in Hrun. cbn -[acquire acquire_then] in Hrun.
      rewrite lookup_insert_eq in Hrun. cbn -[acquire acquire_then] in Hrun.
      injection Hrun as <-. unfold activeResourceCount, idle.
      cbn -[acquire acquire_then].
      rewrite Hpools, Hc, lookup_insert_eq. simpl.
      destruct found; [done |]. rewrite (Hrest eq_refl).
      unfold activeResourceCount in *. simpl in *. lia.
  - intros r Hactive Hq.
    unfold activeResourceCount in *. rewrite _release_counts.
    rewrite resourceReleased_count, decide_True by done.
    unfold _release, _processPendingAcquireRequests, idle in *.
    unfold queue in Hq.
    destruct (_pools w !! key) as [pool|] eqn:Hp; simpl in *.
    + destruct (_validate cfg r); simpl;
        (destruct (_acquireRequests w !! key) as [[|q l]|]; try done);
        simpl; rewrite ?lookup_insert_eq, ?Hp; simpl; lia.
    + (destruct (_acquireRequests w !! key) as [[|q l]|]; try done);
        simpl; rewrite ?Hp; simpl; lia.
Qed.

Local Transparent acquire_then.

End Bound.

(** ** A pool without a bound *)

Section Unbounded.

Variable cfg : Config.

Lemma _process_heap key w :
  heap (_processPendingAcquireRequests cfg key w) = heap w ∧
  timers (_processPendingAcquireRequests cfg key w) = timers w.
Proof.
  unfold _processPendingAcquireRequests.
  destruct (_acquireRequests w !! key) as [[|q rest]|]; [done | | done].
  destruct (_acquire_frame cfg key (set_requests <[key:=rest]> w))
    as (_ & _ & Hh & Ht & _).
  destruct (_acquire _ _ _) as [p w']. simpl in *. by rewrite Hh, Ht.
Qed.

Lemma _release_heap key resource w :
  heap (_release cfg key resource w) = heap w ∧
  timers (_release cfg key resource w) = timers w.
Proof.
  unfold _release.
  match goal with |- context [_processPendingAcquireRequests _ _ ?w0] =>
    destruct (_process_heap key w0) as [-> ->] end.
  simpl. by destruct (_pools w !! key); [destruct (_validate cfg resource) |].
Qed.

Lemma purge_fold_heap keys w :
  heap (foldr purge w keys) = heap w ∧
  timers (foldr purge w keys) = timers w ∧
  settled (foldr purge w keys) = settled w ∧
  created (foldr purge w keys) = created w.
Proof.
  induction keys as [|k keys IH]; simpl; [done |].
  by destruct IH as (<- & <- & <- & <-).
Qed.

(** Without a bound [_acquire] never answers [null]. *)
Lemma _acquire_unbounded key w :
  _maxSize cfg = 0%Z → (_acquire cfg key w).1 ≠ Fulfilled None.
Proof.
  intros Hmax.
  destruct (_acquire_unfold cfg key w) as (found & rest & dead & _ & Hacq).
  simpl in Hacq. rewrite Hacq, Hmax. by destruct found.
Qed.

Lemma step_nobody_queued e w w' :
  _maxSize cfg = 0%Z →
  step cfg e w = Some w' → nobody_queued w → nobody_queued w'.
Proof.
  intros Hmax Hstep (Hr & Hh & Ht & Hk). unfold nobody_queued.
  destruct e as [key|key r|key| |t r|t e|t|id]; simpl in Hstep.
  - injection Hstep as <-. unfold acquire.
    pose proof (_acquire_unbounded key w Hmax) as Hp.
    destruct (_acquire_frame cfg key w) as (Hr1 & _ & Hh1 & Ht1 & Hk1 & _ & Hn).
    destruct (_acquire cfg key w) as [p w1]. simpl in *.
    rewrite Hr1, Hh1, Ht1, Hk1. repeat split; try done.
    intros t c k. destruct (decide (S (next w1) = t)) as [<-|Hne].
    + rewrite lookup_insert_eq. congruence.
    + rewrite lookup_insert_ne by done. apply Hk.
  - injection Hstep as <-.
    destruct (_release_heap key r w) as [-> ->].
    rewrite _release_requests, Hr, lookup_empty.
    repeat split; try done.
    destruct (_release_tasks cfg key r w) as [-> | (q & rest & p & Hq & _)];
      [done |].
    by rewrite Hr, lookup_empty in Hq.
  - by injection Hstep as <-.
  - injection Hstep as <-. unfold purgeAll.
    destruct (purge_fold_frame (elements (dom (_pools w))) w)
      as (-> & _ & -> & _).
    by destruct (purge_fold_heap (elements (dom (_pools w))) w)
      as (-> & -> & _).
  - unfold settle in Hstep.
    destruct (tasks w !! t) as [[[] k]|] eqn:H0; try done.
    injection Hstep as <-. repeat split; try done.
    intros t' c key. simpl. destruct (decide (t = t')) as [<-|Hne].
    + rewrite lookup_insert_eq. congruence.
    + rewrite lookup_insert_ne by done. apply Hk.
  - unfold settle in Hstep.
    destruct (tasks w !! t) as [[[] k]|] eqn:H0; try done.
    injection Hstep as <-. repeat split; try done.
    intros t' c key. simpl. destruct (decide (t = t')) as [<-|Hne].
    + rewrite lookup_insert_eq. congruence.
    + rewrite lookup_insert_ne by done. apply Hk.
  - unfold run_task in Hstep.
    assert (∀ t' c key, delete t (tasks w) !! t'
              ≠ Some (Task (Fulfilled None) (AcquireThen c key))) as Hdel.
    { intros t' c key. destruct (decide (t = t')) as [<-|Hne];
        [by rewrite lookup_delete_eq |].
      rewrite lookup_delete_ne by done. apply Hk. }
    destruct (tasks w !! t) as [[p [c k|q k]]|] eqn:H0; [| | done].
    + destruct p as [[r|]|e|]; [| | | done]; try injection Hstep as <-;
        try done.
      by destruct (Hk t c k).
    + destruct p as [v|e|]; [| | done]; simpl in Hstep;
        by rewrite Hh, lookup_empty in Hstep.
  - unfold fire in Hstep. by rewrite Ht, lookup_empty in Hstep.
Qed.

(** X9.  A pool without a bound ([maxSize] 0 or unset) never queues a
    caller: in every state it can reach no key has a pending queue, no
    PendingRequest exists, no timer is armed, and no callback of [acquire]
    is waiting on a [null]. *)
Theorem unbounded_pool_never_queues w :
  _maxSize cfg = 0%Z → reachable cfg w →
  nobody_queued w ∧ ∀ key, queue key w = [].
Proof.
  intros Hmax [es Hrun].
  assert (nobody_queued w) as Hw.
  { eapply (run_invariant cfg nobody_queued);
      [intros e w1 w2; by apply step_nobody_queued | done |].
    repeat split; try done. }
  split; [done |]. intros key. destruct Hw as (Hr & _).
  unfold queue. by rewrite Hr, lookup_empty.
Qed.

End Unbounded.

(** ** Every step is made of moves *)

Section Moves.

Variable cfg : Config.

Lemma _acquire_core key w : core (_acquire cfg key w).2 = core w.
Proof.
  destruct (_acquire_frame cfg key w) as (Hr & _ & Hh & Ht & Hk & Hs & Hn).
  unfold core. by rewrite Hr, Hh, Ht, Hk, Hs, Hn.
Qed.

Lemma acquire_move key w : move w (acquire cfg key w).2.
Proof.
  unfold acquire. pose proof (_acquire_core key w) as Hcore.
  destruct (_acquire cfg key w) as [p w1]. simpl in Hcore.
  apply (move_call key p). unfold core in *. simpl.
  by injection Hcore as -> -> -> -> -> ->.
Qed.

Lemma _process_move key w :
  move w (_processPendingAcquireRequests cfg key w).
Proof.
  unfold _processPendingAcquireRequests.
  destruct (_acquireRequests w !! key) as [[|q rest]|] eqn:Hq.
  - by apply (move_drop key).
  - pose proof (_acquire_core key (set_requests <[key:=rest]> w)) as Hcore.
    destruct (_acquire _ _ _) as [p w1]. simpl in Hcore.
    apply (move_serve key q rest p); [done |]. unfold core in *. simpl in *.
    by injection Hcore as -> -> -> -> -> ->.
  - by apply move_none.
Qed.

(** A move only looks at the bookkeeping part of the state it starts
    from. *)
Lemma move_from w0 w w' : core w0 = core w → move w0 w' → move w w'.
Proof.
  intros Hcore Hmove. unfold core in Hcore.
  injection Hcore as Hr Hh Ht Hk Hs Hn.
  inversion Hmove as
    [? ? H | ? ? ? ? H | ? ? ? ? ? ? Hq H | ? ? ? Hq H | ? ? ? ? ? Hq H
    | ? ? ? ? ? ? ? Hq H | ? ? ? ? ? ? Hq H | ? ? ? ? ? ? Hq H
    | ? ? ? ? ? ? ? ? Hq Hq' Hc H | ? ? ? ? ? ? Hq Hq' H]; subst;
    unfold core, queue in H; rewrite ?Hr, ?Hh, ?Ht, ?Hk, ?Hs, ?Hn in *.
  - by apply move_none.
  - by eapply move_call.
  - by eapply move_serve.
  - by eapply move_drop.
  - by eapply move_settle.
  - by eapply move_deliver.
  - by eapply move_enqueue.
  - by eapply move_finish.
  - by eapply move_answer.
  - by eapply move_timeout.
Qed.

Lemma _release_move key resource w : move w (_release cfg key resource w).
Proof.
  unfold _release. eapply move_from; [| apply _process_move].
  by destruct (_pools w !! key); [destruct (_validate cfg resource) |].
Qed.

Lemma purgeAll_core w : core (purgeAll w) = core w.
Proof.
  unfold purgeAll, core.
  destruct (purge_fold_frame (elements (dom (_pools w))) w)
    as (-> & _ & -> & ->).
  by destruct (purge_fold_heap (elements (dom (_pools w))) w)
    as (-> & -> & -> & _).
Qed.

Lemma acquire_then_move t p c key v w :
  tasks w !! t = Some (Task p (AcquireThen c key)) →
  move w (acquire_then c key v (set_tasks (delete t) w)).
Proof.
  intros Ht. destruct v as [r|]; simpl.
  - by apply (move_deliver t p c key (Resolved r)).
  - apply (move_enqueue t p c key); [done |]. unfold core, queue.
    destruct (_acquireRequests w !! key) as [l|] eqn:Hl; simpl.
    + by rewrite Hl.
    + by rewrite lookup_insert_eq, insert_insert_eq.
Qed.

Lemma process_then_moves t p q key request w :
  tasks w !! t = Some (Task p (ProcessThen q key)) →
  heap w !! q = Some request →
  rtc move w (process_then cfg q request key p (set_tasks (delete t) w)).
Proof.
  intros Ht Hq. unfold process_then.
  assert (move w (set_tasks (delete t) w)) as Hfinish
    by by apply (move_finish t p q key).
  destruct p as [[r|]|e|]; try by apply rtc_once.
  - unfold PendingRequest.isCompleted.
    destruct (_completed request) eqn:Hc.
    + eapply rtc_l; [exact Hfinish |]. apply rtc_once, _release_move.
    + apply rtc_once,
        (move_answer t (Fulfilled (Some r)) q key request (Resolved r));
        try done.
      unfold invoke, PendingRequest.resolve. by rewrite Hc.
  - apply rtc_once. unfold invoke, PendingRequest.reject.
    destruct (_completed request) eqn:Hc; simpl.
    + apply (move_finish t (Rejected e) q key); [done |]. unfold core. simpl.
      by rewrite insert_id.
    + by apply (move_answer t (Rejected e) q key request (Failed e)).
Qed.

Lemma fire_move id w w' : fire cfg id w = Some w' → move w w'.
Proof.
  unfold fire. destruct (timers w !! id) as [key|] eqn:Ht; [| done].
  destruct (heap w !! id) as [request|] eqn:Hh; [| done]. simpl.
  intros [= <-].
  apply (move_timeout id key request
           (Failed (AcquisitionTimeout (_acquisitionTimeout cfg))));
    try done.
  unfold on_timeout, PendingRequest.isCompleted, invoke,
    PendingRequest.reject, core.
  destruct (_completed request); simpl;
    by destruct (_acquireRequests w !! key).
Qed.

Lemma step_moves e w w' : step cfg e w = Some w' → rtc move w w'.
Proof.
  destruct e as [key|key r|key| |t r|t e|t|id]; simpl.
  - intros [= <-]. apply rtc_once, acquire_move.
  - intros [= <-]. apply rtc_once, _release_move.
  - intros [= <-]. by apply rtc_once, move_none.
  - intros [= <-]. apply rtc_once, move_none, purgeAll_core.
  - unfold settle. destruct (tasks w !! t) as [[[] k]|] eqn:Ht; try done.
    intros [= <-]. by apply rtc_once, (move_settle t k (Fulfilled (Some r))).
  - unfold settle. destruct (tasks w !! t) as [[[] k]|] eqn:Ht; try done.
    intros [= <-]. by apply rtc_once, (move_settle t k (Rejected e)).
  - unfold run_task.
    destruct (tasks w !! t) as [[p [c key|q key]]|] eqn:Ht; [| | done].
    + destruct p as [v|e|]; [| | done]; intros [= <-].
      * by eapply rtc_once, acquire_then_move.
      * by apply rtc_once, (move_deliver t (Rejected e) c key (Failed e)).
    + destruct p as [v|e|]; [| | done]; simpl;
        (destruct (heap w !! q) as [request|] eqn:Hq; [| done]);
        intros [= <-].
      * exact (process_then_moves t (Fulfilled v) q key request w Ht Hq).
      * exact (process_then_moves t (Rejected e) q key request w Ht Hq).
  - intros H. apply rtc_once. by apply (fire_move id).
Qed.

(** What every move keeps, every state the pool reaches has. *)
Lemma reachable_by_moves (P : Pool → Prop) :
  P empty_pool → (∀ w w', move w w' → P w → P w') →
  ∀ w, reachable cfg w → P w.
Proof.
  intros Hinit Hmove w [es Hrun].
  eapply (run_invariant cfg P); [| done | done].
  intros e w1 w2 Hstep Hw1. apply step_moves in Hstep.
  induction Hstep as [|x y z Hxy _ IH]; [done |].
  apply IH. by eapply Hmove.
Qed.

End Moves.

(** ** Timers and requests *)

(** The fields of the state after a move. *)
Ltac after_move H :=
  unfold core in H;
  let Hr := fresh "Hr" in let Hh := fresh "Hh" in let Ht := fresh "Ht" in
  let Hk := fresh "Hk" in let Hs := fresh "Hs" in let Hn := fresh "Hn" in
  injection H as Hr Hh Ht Hk Hs Hn.

Section Timers.

Variable cfg : Config.

(** Completing the request at [q], whose timer is [q]. *)
Lemma complete_timers_ok q request w
  (heap' : gmap nat PendingRequest) (timers' : gmap nat string) :
  timers_ok w → heap w !! q = Some request →
  heap' = <[q := PendingRequest.complete request]> (heap w) →
  (∀ id, id ≠ q → timers' !! id = timers w !! id) →
  timers' !! q = None →
  ∀ id, (∀ request', heap' !! id = Some request' → _timeoutId request' = id) ∧
        (∀ key, timers' !! id = Some key →
                ∃ request', heap' !! id = Some request' ∧
                            _completed request' = false).
Proof.
  intros Hw Hq -> Hother Hgone id. destruct (decide (id = q)) as [->|Hne].
  - rewrite lookup_insert_eq, Hgone. split; [| done].
    intros ? [= <-]. simpl. by apply (Hw q).
  - rewrite lookup_insert_ne, Hother by done. apply Hw.
Qed.

Lemma move_timers_ok w w' : move w w' → timers_ok w → timers_ok w'.
Proof.
  intros Hmove Hw. unfold timers_ok.
  inversion Hmove as
    [? ? H | ? ? ? ? H | ? ? ? ? ? ? Hq H | ? ? ? Hq H | ? ? ? ? ? Hq H
    | ? ? ? ? ? ? ? Hq H | ? ? ? ? ? ? Hq H | ? ? ? ? ? ? Hq H
    | ? ? ? ? ? ? ? ? Hq Hq' Hc H | id0 key request ? ? ? Hq Hq' H]; subst;
    after_move H; try (rewrite Hh, Ht; exact Hw).
  - rewrite Hh, Ht. intros id. destruct (decide (next w = id)) as [<-|Hne].
    + rewrite !lookup_insert_eq. split; [by intros ? [= <-] |].
      intros ? _. by eexists.
    + rewrite !lookup_insert_ne by done. apply Hw.
  - pose proof (proj1 (Hw q) _ Hq') as Hid.
    eapply complete_timers_ok; [done | done | done | |].
    + intros id Hne. rewrite Ht, Hid. by rewrite lookup_delete_ne.
    + rewrite Ht, Hid. apply lookup_delete_eq.
  - pose proof (proj1 (Hw id0) _ Hq') as Hid.
    destruct (_completed request) eqn:Hc.
    + rewrite Hh, Ht. intros id. split; [apply Hw |].
      intros k. destruct (decide (id0 = id)) as [<-|Hne];
        [by rewrite lookup_delete_eq |].
      rewrite lookup_delete_ne by done. apply Hw.
    + eapply complete_timers_ok; [done | done | done | |].
      * intros id Hne. rewrite Ht, Hid. by rewrite !lookup_delete_ne.
      * rewrite Ht, Hid. apply lookup_delete_eq.
Qed.

Lemma reachable_timers_ok w : reachable cfg w → timers_ok w.
Proof.
  apply (reachable_by_moves cfg timers_ok); [| apply move_timers_ok].
  intros id. simpl. split; intros ?; by rewrite lookup_empty.
Qed.

(** X10.  In every state the pool reaches, an armed timer belongs to a
    request that is not completed.  So a timer that fires always fails its
    caller: the caller's promise is settled with the timeout error of the
    configured duration, and the request is out of the queue of its key.  The
    branch of the timer callback for a completed request is never taken. *)
Theorem timer_always_fails_its_caller id key w :
  reachable cfg w → timers w !! id = Some key →
  ∃ request w',
    heap w !! id = Some request ∧ _completed request = false ∧
    step cfg (Timeout id) w = Some w' ∧
    settled w' = settled w ++
      [(_promise request,
        Failed (AcquisitionTimeout (_acquisitionTimeout cfg)))] ∧
    heap w' !! id = Some (PendingRequest.complete request) ∧
    timers w' !! id = None ∧
    id ∉ queue key w'.
Proof.
  intros Hreach Ht.
  destruct (reachable_timers_ok w Hreach id) as [Hid Harmed].
  destruct (Harmed key Ht) as (request & Hh & Hc).
  specialize (Hid request Hh).
  exists request. eexists. split; [done |]. split; [done |].
  simpl. unfold fire. rewrite Ht. simpl. rewrite Hh. simpl.
  split; [done |].
  unfold on_timeout, PendingRequest.isCompleted, invoke,
    PendingRequest.reject. rewrite Hc. simpl. unfold queue.
  destruct (_acquireRequests w !! key) as [l|] eqn:Hl; simpl;
    rewrite Hid, !lookup_insert_eq, lookup_delete_eq;
    (repeat split; [done..|]).
  - simpl. by intros [H _]%list_elem_of_filter.
  - rewrite ?Hl. simpl. apply not_elem_of_nil.
Qed.

End Timers.

(** ** Who is in a queue *)

Section Waiting.

Variable cfg : Config.

Lemma queue_after_insert (m : gmap string (list nat)) k0 l k :
  default [] (<[k0 := l]> m !! k) =
    if decide (k0 = k) then l else default [] (m !! k).
Proof.
  destruct (decide (k0 = k)) as [->|Hne];
    [by rewrite lookup_insert_eq | by rewrite lookup_insert_ne].
Qed.

(** Moves that add nothing to a queue. *)
Lemma waiting_ok_shrink w w' :
  waiting_ok w →
  (∀ k, NoDup (queue k w') ∧ ∀ q, q ∈ queue k w' → q ∈ queue k w) →
  next w ≤ next w' →
  (∀ k q, q ∈ queue k w' → timers w' !! q = timers w !! q) →
  (∀ q, is_Some (heap w !! q) → is_Some (heap w' !! q)) →
  (∀ t p q key, tasks w' !! t = Some (Task p (ProcessThen q key)) →
     (∃ p', tasks w !! t = Some (Task p' (ProcessThen q key))) ∨
     (q < next w' ∧ is_Some (heap w' !! q) ∧ ∀ k, q ∉ queue k w')) →
  waiting_ok w'.
Proof.
  intros (HA & HB & HC) Hsub Hn Ht Hh Hk. repeat split.
  - apply Hsub.
  - destruct (HA key) as [_ Hlt]. rewrite Forall_forall in Hlt.
    apply Forall_forall. intros q Hq%Hsub. specialize (Hlt q Hq). lia.
  - intros key q Hq. rewrite (Ht key q Hq). by apply HB, Hsub.
  - destruct (Hk t p q key H) as [[p' Hold] | (Hlt & _)]; [| done].
    destruct (HC t p' q key Hold) as (Hlt & _). lia.
  - destruct (Hk t p q key H) as [[p' Hold] | (_ & Hsome & _)]; [| done].
    apply Hh. by destruct (HC t p' q key Hold) as (_ & Hsome & _).
  - intros k Hq. destruct (Hk t p q key H) as [[p' Hold] | (_ & _ & Hout)].
    + destruct (HC t p' q key Hold) as (_ & _ & Hout).
      by apply (Hout k), Hsub.
    + by apply (Hout k).
Qed.

Lemma move_waiting_ok w w' :
  move w w' → timers_ok w → waiting_ok w → waiting_ok w'.
Proof.
  intros Hmove Hto Hw. pose proof Hw as (HA & HB & HC).
  inversion Hmove as
    [? ? H | key0 p ? ? H | key0 q0 rest p ? ? Hq H | key0 ? ? Hq H
    | t0 k0 p ? ? Hq H | t0 p c key0 o ? ? Hq H | t0 p c key0 ? ? Hq H
    | t0 p q0 key0 ? ? Hq H | t0 p q0 key0 request o ? ? Hq Hq' Hc H
    | id0 key0 request o ? ? Hq Hq' H]; subst; after_move H.
  - (* nothing *)
    apply (waiting_ok_shrink w); unfold queue; rewrite ?Hr, ?Hh, ?Ht, ?Hn;
      try done.
    + intros k. split; [apply HA | done].
    + intros t p q key. rewrite Hk. eauto.
  - (* call *)
    apply (waiting_ok_shrink w); unfold queue; rewrite ?Hr, ?Hh, ?Ht, ?Hn;
      try done; [| lia |].
    + intros k. split; [apply HA | done].
    + intros t p' q key. rewrite Hk.
      destruct (decide (S (next w) = t)) as [<-|Hne];
        [by rewrite lookup_insert_eq |].
      rewrite lookup_insert_ne by done. eauto.
  - (* serve *)
    assert (queue key0 w = q0 :: rest) as Hq0 by (unfold queue; by rewrite Hq).
    assert (∀ k, queue k w' = if decide (key0 = k) then rest else queue k w)
      as Hqueue by (intros k; unfold queue; rewrite Hr;
                    apply queue_after_insert).
    assert (∀ k q, q ∈ queue k w' → q ∈ queue k w) as Hsub.
    { intros k q. rewrite Hqueue. destruct (decide (key0 = k)) as [<-|];
        [| done]. rewrite Hq0. by right. }
    assert (∀ k, q0 ∉ queue k w') as Hout.
    { intros k. rewrite Hqueue. destruct (decide (key0 = k)) as [<-|Hne].
      - destruct (HA key0) as [Hnd _]. rewrite Hq0 in Hnd.
        by apply NoDup_cons in Hnd as [? _].
      - intros Hin. apply HB in Hin.
        assert (timers w !! q0 = Some key0) as Hin'
          by (apply HB; rewrite Hq0; by left).
        congruence. }
    apply (waiting_ok_shrink w); rewrite ?Hh, ?Ht, ?Hn; try done; [| lia |].
    + intros k. split; [| apply Hsub]. rewrite Hqueue.
      destruct (decide (key0 = k)) as [<-|]; [| apply HA].
      destruct (HA key0) as [Hnd _]. rewrite Hq0 in Hnd.
      by apply NoDup_cons in Hnd as [_ ?].
    + intros t p' q key. rewrite Hk.
      destruct (decide (next w = t)) as [<-|Hne].
      * rewrite lookup_insert_eq. intros [= -> -> ->]. right.
        assert (q ∈ queue key w) as Hin by (rewrite Hq0; by left).
        repeat split; [| | done].
        -- destruct (HA key) as [_ Hlt]. rewrite Forall_forall in Hlt.
           specialize (Hlt q Hin). lia.
        -- apply HB in Hin.
           destruct (proj2 (Hto q) key Hin) as (request & -> & _).
           by eexists.
      * rewrite lookup_insert_ne by done. eauto.
  - (* drop *)
    assert (∀ k, queue k w' = queue k w) as Hqueue.
    { intros k. unfold queue. rewrite Hr.
      destruct (decide (key0 = k)) as [<-|Hne];
        [by rewrite lookup_delete_eq, Hq | by rewrite lookup_delete_ne]. }
    apply (waiting_ok_shrink w); rewrite ?Hh, ?Ht, ?Hn; try done.
    + intros k. rewrite Hqueue. split; [apply HA | done].
    + intros t p q key. rewrite Hk. eauto.
  - (* settle *)
    apply (waiting_ok_shrink w); unfold queue; rewrite ?Hr, ?Hh, ?Ht, ?Hn;
      try done.
    + intros k. split; [apply HA | done].
    + intros t p' q key. rewrite Hk.
      destruct (decide (t0 = t)) as [<-|Hne].
      * rewrite lookup_insert_eq. intros [= -> ->]. eauto.
      * rewrite lookup_insert_ne by done. eauto.
  - (* deliver *)
    apply (waiting_ok_shrink w); unfold queue; rewrite ?Hr, ?Hh, ?Ht, ?Hn;
      try done.
    + intros k. split; [apply HA | done].
    + intros t p' q key. rewrite Hk. intros [_ H]%lookup_delete_Some. eauto.
  - (* enqueue *)
    assert (∀ k, queue k w' = if decide (key0 = k)
                              then queue key0 w ++ [next w] else queue k w)
      as Hqueue by (intros k; unfold queue; rewrite Hr;
                    apply queue_after_insert).
    assert (∀ k q, q ∈ queue k w → q < next w) as Hlt.
    { intros k q. destruct (HA k) as [_ H]. rewrite Forall_forall in H.
      apply H. }
    repeat split.
    + rewrite Hqueue. destruct (decide (key0 = key)) as [<-|]; [| apply HA].
      apply NoDup_app. split; [apply HA |].
      split; [| apply NoDup_singleton].
      intros x Hx ->%list_elem_of_singleton. apply Hlt in Hx. lia.
    + rewrite Hqueue, Hn. apply Forall_forall. intros q.
      destruct (decide (key0 = key)) as [<-|].
      * rewrite elem_of_app, list_elem_of_singleton.
        intros [Hin%Hlt | ->]; lia.
      * intros Hin%Hlt. lia.
    + intros key q. rewrite Hqueue, Ht.
      destruct (decide (key0 = key)) as [<-|Hne].
      * rewrite elem_of_app, list_elem_of_singleton. intros [Hin | ->];
          [| apply lookup_insert_eq].
        rewrite lookup_insert_ne by (apply Hlt in Hin; lia). by apply HB.
      * intros Hin. rewrite lookup_insert_ne by (apply Hlt in Hin; lia).
        by apply HB.
    + rewrite Hk in H. apply lookup_delete_Some in H as [_ H].
      destruct (HC _ _ _ _ H) as (? & _). lia.
    + rewrite Hk in H. apply lookup_delete_Some in H as [_ H].
      destruct (HC _ _ _ _ H) as (_ & Hsome & _). rewrite Hh.
      apply lookup_insert_is_Some'. by right.
    + rewrite Hk in H. apply lookup_delete_Some in H as [_ H].
      destruct (HC _ _ _ _ H) as (Hlt' & _ & Hout). intros k.
      rewrite Hqueue. destruct (decide (key0 = k)) as [<-|]; [| apply Hout].
      rewrite elem_of_app, list_elem_of_singleton.
      intros [Hin | ->]; [by apply (Hout key0) | lia].
  - (* finish *)
    apply (waiting_ok_shrink w); unfold queue; rewrite ?Hr, ?Hh, ?Ht, ?Hn;
      try done.
    + intros k. split; [apply HA | done].
    + intros t p' q key. rewrite Hk. intros [_ H]%lookup_delete_Some. eauto.
  - (* answer *)
    pose proof (proj1 (Hto q0) _ Hq') as Hid.
    destruct (HC _ _ _ _ Hq) as (_ & _ & Hout).
    apply (waiting_ok_shrink w); unfold queue; rewrite ?Hr, ?Hh, ?Ht, ?Hn;
      try done.
    + intros k. split; [apply HA | done].
    + intros k q Hin. rewrite Hid. apply lookup_delete_ne.
      intros <-. by apply (Hout k).
    + intros q Hsome. apply lookup_insert_is_Some'. by right.
    + intros t p' q key. rewrite Hk. intros [_ H]%lookup_delete_Some. eauto.
  - (* timeout *)
    pose proof (proj1 (Hto id0) _ Hq') as Hid.
    assert (∀ k, queue k w' = if decide (key0 = k)
                              then filter (λ item, item ≠ id0) (queue key0 w)
                              else queue k w) as Hqueue.
    { intros k. unfold queue. rewrite Hr.
      destruct (_acquireRequests w !! key0) as [l|] eqn:Hl.
      - rewrite queue_after_insert. by destruct (decide (key0 = k)).
      - destruct (decide (key0 = k)) as [<-|]; [| done]. by rewrite Hl. }
    assert (∀ k q, q ∈ queue k w' → q ∈ queue k w ∧ q ≠ id0) as Hsub.
    { intros k q. rewrite Hqueue. destruct (decide (key0 = k)) as [<-|Hne].
      - by intros [? ?]%list_elem_of_filter.
      - intros Hin. split; [done |]. intros ->. apply HB in Hin.
        congruence. }
    apply (waiting_ok_shrink w); rewrite ?Hn; try done.
    + intros k. split; [| intros q Hin; by apply (Hsub k)].
      rewrite Hqueue. destruct (decide (key0 = k)) as [<-|]; [| apply HA].
      apply NoDup_filter, HA.
    + intros k q [_ Hne]%Hsub. rewrite Ht.
      destruct (_completed request); rewrite ?Hid;
        by rewrite !lookup_delete_ne.
    + intros q Hsome. rewrite Hh. destruct (_completed request); [done |].
      apply lookup_insert_is_Some'. by right.
    + intros t p' q key. rewrite Hk. eauto.
Qed.

End Waiting.

(** ** Who settles which promise *)

Section Calls.

Variable cfg : Config.

(** Completing a pending request keeps the promises apart. *)
Lemma calls_ok_complete q0 request o w w' :
  calls_ok w → heap w !! q0 = Some request → _completed request = false →
  heap w' = <[q0 := PendingRequest.complete request]> (heap w) →
  settled w' = settled w ++ [(_promise request, o)] →
  next w' = next w →
  (∀ t x, tasks w' !! t = Some x → tasks w !! t = Some x) →
  calls_ok w'.
Proof.
  intros (H1 & H2 & H3 & H4 & H5) Hq Hc Hh Hs Hn Hk.
  destruct (H2 q0 request Hq) as (Hq0 & Hlt & Hfresh).
  specialize (Hfresh Hc).
  assert (∀ q r, heap w' !! q = Some r →
            ∃ r', heap w !! q = Some r' ∧ _promise r' = _promise r ∧
                  (_completed r = false → q ≠ q0 ∧ r' = r)) as Hold.
  { intros q r. rewrite Hh. destruct (decide (q0 = q)) as [<-|Hne].
    - rewrite lookup_insert_eq. intros [= <-]. by exists request.
    - rewrite lookup_insert_ne by done. intros Hr. exists r. by repeat split. }
  unfold calls_ok. rewrite Hs, Hn, fmap_app. simpl. repeat split.
  - by destruct (H1 t p c key (Hk _ _ H)) as (? & _).
  - by destruct (H1 t p c key (Hk _ _ H)) as (_ & ? & _).
  - destruct (H1 t p c key (Hk _ _ H)) as (_ & _ & Hout & Hne).
    rewrite elem_of_app, list_elem_of_singleton. intros [Hin | ->]; [done |].
    by apply (Hne q0 request).
  - intros q r Hr. destruct (Hold q r Hr) as (r' & Hr' & <- & _).
    destruct (H1 t p c key (Hk _ _ H)) as (_ & _ & _ & Hne). by eapply Hne.
  - destruct (Hold q request0 H) as (r' & Hr' & _).
    by destruct (H2 q r' Hr') as (? & _).
  - destruct (Hold q request0 H) as (r' & Hr' & <- & _).
    by destruct (H2 q r' Hr') as (_ & ? & _).
  - intros Hc0. destruct (Hold q request0 H) as (r' & Hr' & _ & Hsame).
    destruct (Hsame Hc0) as [Hne ->].
    destruct (H2 q request0 Hr') as (_ & _ & Hout).
    rewrite elem_of_app, list_elem_of_singleton.
    intros [Hin | Heq]; [by apply Hout |].
    apply Hne. by apply (H3 q q0 request0 request).
  - intros q q' r1 r2 Hr1 Hr2 Heq.
    destruct (Hold q r1 Hr1) as (r1' & Hr1' & Hp1 & _).
    destruct (Hold q' r2 Hr2) as (r2' & Hr2' & Hp2 & _).
    apply (H3 q q' r1' r2'); congruence.
  - intros c. rewrite elem_of_app, list_elem_of_singleton.
    intros [Hin | ->]; [by apply H4 | done].
  - apply NoDup_app. split; [done |]. split; [| apply NoDup_singleton].
    by intros x Hx ->%list_elem_of_singleton.
Qed.

Lemma move_calls_ok w w' : move w w' → calls_ok w → calls_ok w'.
Proof.
  intros Hmove Hw. pose proof Hw as (H1 & H2 & H3 & H4 & H5).
  inversion Hmove as
    [? ? H | key0 p ? ? H | key0 q0 rest p ? ? Hq H | key0 ? ? Hq H
    | t0 k0 p ? ? Hq H | t0 p c0 key0 o ? ? Hq H | t0 p c0 key0 ? ? Hq H
    | t0 p q0 key0 ? ? Hq H | t0 p q0 key0 request o ? ? Hq Hq' Hc H
    | id0 key0 request o ? ? Hq Hq' H]; subst; after_move H.
  - (* nothing *)
    unfold calls_ok. by rewrite Hh, Hk, Hs, Hn.
  - (* call *)
    unfold calls_ok. rewrite Hh, Hk, Hs, Hn. repeat split.
    + destruct (decide (S (next w) = t)) as [<-|Hne].
      * rewrite lookup_insert_eq in H. by injection H as _ -> _.
      * rewrite lookup_insert_ne in H by done.
        by destruct (H1 _ _ _ _ H) as (? & _).
    + destruct (decide (S (next w) = t)) as [<-|Hne]; [lia |].
      rewrite lookup_insert_ne in H by done.
      destruct (H1 _ _ _ _ H) as (_ & ? & _). lia.
    + destruct (decide (S (next w) = t)) as [<-|Hne].
      * rewrite lookup_insert_eq in H. injection H as _ <- _.
        intros Hin%H4. lia.
      * rewrite lookup_insert_ne in H by done.
        by destruct (H1 _ _ _ _ H) as (_ & _ & ? & _).
    + intros q r Hreq. destruct (decide (S (next w) = t)) as [<-|Hne].
      * rewrite lookup_insert_eq in H. injection H as _ <- _.
        destruct (H2 q r Hreq) as (_ & ? & _). lia.
      * rewrite lookup_insert_ne in H by done.
        destruct (H1 _ _ _ _ H) as (_ & _ & _ & Hne'). by eapply Hne'.
    + destruct (H2 _ _ H) as (? & _). lia.
    + destruct (H2 _ _ H) as (_ & ? & _). lia.
    + by destruct (H2 _ _ H) as (_ & _ & ?).
    + done.
    + intros c Hin%H4. lia.
    + done.
  - (* serve *)
    unfold calls_ok. rewrite Hh, Hk, Hs, Hn.
    assert (∀ t p' c key,
              <[next w := Task p (ProcessThen q0 key0)]> (tasks w) !! t
                = Some (Task p' (AcquireThen c key)) →
              tasks w !! t = Some (Task p' (AcquireThen c key))) as Hold.
    { intros t p' c key. destruct (decide (next w = t)) as [<-|Hne];
        [by rewrite lookup_insert_eq | by rewrite lookup_insert_ne]. }
    repeat split.
    + by destruct (H1 _ _ _ _ (Hold _ _ _ _ H)) as (? & _).
    + destruct (H1 _ _ _ _ (Hold _ _ _ _ H)) as (_ & ? & _). lia.
    + by destruct (H1 _ _ _ _ (Hold _ _ _ _ H)) as (_ & _ & ? & _).
    + by destruct (H1 _ _ _ _ (Hold _ _ _ _ H)) as (_ & _ & _ & ?).
    + destruct (H2 _ _ H) as (? & _). lia.
    + destruct (H2 _ _ H) as (_ & ? & _). lia.
    + by destruct (H2 _ _ H) as (_ & _ & ?).
    + done.
    + intros c Hin%H4. lia.
    + done.
  - (* drop *)
    unfold calls_ok. by rewrite Hh, Hk, Hs, Hn.
  - (* settle *)
    unfold calls_ok. rewrite Hh, Hk, Hs, Hn.
    assert (∀ t p' c key,
              <[t0 := Task p k0]> (tasks w) !! t
                = Some (Task p' (AcquireThen c key)) →
              ∃ p'', tasks w !! t = Some (Task p'' (AcquireThen c key)))
      as Hold.
    { intros t p' c key. destruct (decide (t0 = t)) as [<-|Hne].
      - rewrite lookup_insert_eq. intros [= -> ->]. eauto.
      - rewrite lookup_insert_ne by done. eauto. }
    repeat split; try done.
    + destruct (Hold _ _ _ _ H) as [p'' H'].
      by destruct (H1 _ _ _ _ H') as (? & _).
    + destruct (Hold _ _ _ _ H) as [p'' H'].
      by destruct (H1 _ _ _ _ H') as (_ & ? & _).
    + destruct (Hold _ _ _ _ H) as [p'' H'].
      by destruct (H1 _ _ _ _ H') as (_ & _ & ? & _).
    + destruct (Hold _ _ _ _ H) as [p'' H'].
      by destruct (H1 _ _ _ _ H') as (_ & _ & _ & ?).
    + by destruct (H2 _ _ H) as (? & _).
    + by destruct (H2 _ _ H) as (_ & ? & _).
    + by destruct (H2 _ _ H) as (_ & _ & ?).
  - (* deliver *)
    destruct (H1 _ _ _ _ Hq) as (Ht0 & Hlt0 & Hout0 & Hne0).
    unfold calls_ok. rewrite Hh, Hk, Hs, Hn, fmap_app. simpl. repeat split.
    + apply lookup_delete_Some in H as [_ H].
      by destruct (H1 _ _ _ _ H) as (? & _).
    + apply lookup_delete_Some in H as [_ H].
      by destruct (H1 _ _ _ _ H) as (_ & ? & _).
    + apply lookup_delete_Some in H as [Hne H].
      destruct (H1 _ _ _ _ H) as (Hts & _ & Hout & _).
      rewrite elem_of_app, list_elem_of_singleton.
      intros [Hin | ->]; [done | congruence].
    + apply lookup_delete_Some in H as [_ H].
      by destruct (H1 _ _ _ _ H) as (_ & _ & _ & ?).
    + by destruct (H2 _ _ H) as (? & _).
    + by destruct (H2 _ _ H) as (_ & ? & _).
    + intros Hc. destruct (H2 _ _ H) as (_ & _ & Hout).
      rewrite elem_of_app, list_elem_of_singleton.
      intros [Hin | Heq]; [by apply Hout | by apply (Hne0 _ _ H)].
    + done.
    + intros c. rewrite elem_of_app, list_elem_of_singleton.
      intros [Hin | ->]; [by apply H4 | lia].
    + apply NoDup_app. split; [done |]. split; [| apply NoDup_singleton].
      by intros x Hx ->%list_elem_of_singleton.
  - (* enqueue *)
    destruct (H1 _ _ _ _ Hq) as (Ht0 & Hlt0 & Hout0 & Hne0).
    assert (∀ q r, <[next w := mkRequest c0 (next w) false]> (heap w) !! q
                     = Some r →
              (q = next w ∧ r = mkRequest c0 (next w) false) ∨
              (q ≠ next w ∧ heap w !! q = Some r)) as Hheap.
    { intros q r. destruct (decide (next w = q)) as [<-|Hne].
      - rewrite lookup_insert_eq. intros [= <-]. by left.
      - rewrite lookup_insert_ne by done. intros Hreq. right. split; done. }
    unfold calls_ok. rewrite Hh, Hk, Hs, Hn. repeat split.
    + apply lookup_delete_Some in H as [_ H].
      by destruct (H1 _ _ _ _ H) as (? & _).
    + apply lookup_delete_Some in H as [_ H].
      destruct (H1 _ _ _ _ H) as (_ & ? & _). lia.
    + apply lookup_delete_Some in H as [_ H].
      by destruct (H1 _ _ _ _ H) as (_ & _ & ? & _).
    + apply lookup_delete_Some in H as [Hne H].
      destruct (H1 _ _ _ _ H) as (Hts & _ & _ & Hne').
      intros q r [[-> ->] | [_ Hreq]]%Hheap; [simpl; congruence |].
      by eapply Hne'.
    + apply Hheap in H as [[-> ->] | [_ Hreq]]; [lia |].
      destruct (H2 _ _ Hreq) as (? & _). lia.
    + apply Hheap in H as [[-> ->] | [_ Hreq]]; [simpl; lia |].
      destruct (H2 _ _ Hreq) as (_ & ? & _). lia.
    + apply Hheap in H as [[-> ->] | [_ Hreq]]; [done |].
      by destruct (H2 _ _ Hreq) as (_ & _ & ?).
    + intros q q' r1 r2 [[-> ->] | [Hn1 Hr1]]%Hheap
        [[-> ->] | [Hn2 Hr2]]%Hheap Heq; simpl in Heq; try done.
      * by destruct (Hne0 _ _ Hr2).
      * by destruct (Hne0 _ _ Hr1).
      * by apply (H3 q q' r1 r2).
    + intros c Hin%H4. lia.
    + done.
  - (* finish *)
    unfold calls_ok. rewrite Hh, Hk, Hs, Hn. repeat split; try done.
    + apply lookup_delete_Some in H as [_ H].
      by destruct (H1 _ _ _ _ H) as (? & _).
    + apply lookup_delete_Some in H as [_ H].
      by destruct (H1 _ _ _ _ H) as (_ & ? & _).
    + apply lookup_delete_Some in H as [_ H].
      by destruct (H1 _ _ _ _ H) as (_ & _ & ? & _).
    + apply lookup_delete_Some in H as [_ H].
      by destruct (H1 _ _ _ _ H) as (_ & _ & _ & ?).
    + by destruct (H2 _ _ H) as (? & _).
    + by destruct (H2 _ _ H) as (_ & ? & _).
    + by destruct (H2 _ _ H) as (_ & _ & ?).
  - (* answer *)
    apply (calls_ok_complete q0 request o w); try done.
    intros t x. rewrite Hk. by intros [_ ?]%lookup_delete_Some.
  - (* timeout *)
    destruct (_completed request) eqn:Hc.
    + unfold calls_ok. by rewrite Hh, Hk, Hs, Hn.
    + apply (calls_ok_complete id0 request o w); try done.
      intros t x. by rewrite Hk.
Qed.

End Calls.

(** ** What holds in every state the pool reaches *)

Section Reached.

Variable cfg : Config.

Lemma move_pending_armed w w' :
  move w w' → timers_ok w → pending_armed w → pending_armed w'.
Proof.
  intros Hmove Hto Hw. unfold pending_armed.
  inversion Hmove as
    [? ? H | ? ? ? ? H | ? ? ? ? ? ? Hq H | ? ? ? Hq H | ? ? ? ? ? Hq H
    | ? ? ? ? ? ? ? Hq H | ? ? c0 key0 ? ? Hq H | ? ? ? ? ? ? Hq H
    | ? ? q0 ? request ? ? ? Hq Hq' Hc H | id0 key0 request ? ? ? Hq Hq' H];
    subst; after_move H; try (rewrite Hh, Ht; exact Hw).
  - rewrite Hh, Ht. intros q r. destruct (decide (next w = q)) as [<-|Hne].
    + rewrite !lookup_insert_eq. by eexists.
    + rewrite !lookup_insert_ne by done. apply Hw.
  - pose proof (proj1 (Hto q0) _ Hq') as Hid.
    rewrite Hh, Ht, Hid. intros q r. destruct (decide (q0 = q)) as [<-|Hne].
    + rewrite lookup_insert_eq. by intros [= <-].
    + rewrite lookup_insert_ne, lookup_delete_ne by done. apply Hw.
  - pose proof (proj1 (Hto id0) _ Hq') as Hid.
    rewrite Hh, Ht. intros q r. destruct (_completed request) eqn:Hc.
    + destruct (decide (id0 = q)) as [<-|Hne]; [congruence |].
      rewrite lookup_delete_ne by done. apply Hw.
    + rewrite Hid. destruct (decide (id0 = q)) as [<-|Hne].
      * rewrite lookup_insert_eq. by intros [= <-].
      * rewrite lookup_insert_ne, !lookup_delete_ne by done. apply Hw.
Qed.

Lemma reachable_well_formed w :
  reachable cfg w →
  timers_ok w ∧ waiting_ok w ∧ pending_armed w ∧ calls_ok w.
Proof.
  apply (reachable_by_moves cfg
           (λ w, timers_ok w ∧ waiting_ok w ∧ pending_armed w ∧ calls_ok w)).
  - repeat split; try done; simpl;
      try (intros; by rewrite ?lookup_empty in * );
      try apply NoDup_nil_2; try by constructor.
    + intros key q Hq. by apply not_elem_of_nil in Hq.
    + intros c Hc. by apply not_elem_of_nil in Hc.
  - intros w1 w2 Hmove (Hto & Hwo & Hpa & Hco).
    split; [| split; [| split]].
    + by apply (move_timers_ok w1).
    + by apply (move_waiting_ok w1).
    + by apply (move_pending_armed w1).
    + by apply (move_calls_ok w1).
Qed.

(** X11.  In every state the pool reaches, a request in the queue of a key
    is pending: it is not completed, its timer is armed for that key, it is
    in the queue of no other key and only once in its own, and the servicing
    has not taken it. *)
Theorem queued_request_is_pending key q w :
  reachable cfg w → q ∈ queue key w →
  timers w !! q = Some key ∧
  (∃ request, heap w !! q = Some request ∧ _completed request = false ∧
              _timeoutId request = q) ∧
  (∀ k, q ∈ queue k w → k = key) ∧
  NoDup (queue key w) ∧
  (∀ t p k, tasks w !! t ≠ Some (Task p (ProcessThen q k))).
Proof.
  intros Hreach Hin.
  destruct (reachable_well_formed w Hreach) as (Hto & (HA & HB & HC) & _).
  pose proof (HB key q Hin) as Ht.
  destruct (proj2 (Hto q) key Ht) as (request & Hh & Hc).
  repeat split; try done.
  - exists request. repeat split; try done. by apply (Hto q).
  - intros k Hk%HB. congruence.
  - apply HA.
  - intros t p k Htask. destruct (HC t p q k Htask) as (_ & _ & Hout).
    by apply (Hout key).
Qed.

(** X12.  In every state the pool reaches, a request is not completed
    exactly when its timer is armed: whatever took it out of its queue, a
    pending request keeps the timer that will complete it at the latest. *)
Theorem pending_request_keeps_its_timer q request w :
  reachable cfg w → heap w !! q = Some request →
  (_completed request = false ↔ is_Some (timers w !! q)).
Proof.
  intros Hreach Hh.
  destruct (reachable_well_formed w Hreach) as (Hto & _ & Hpa & _).
  split; [by apply Hpa |]. intros [key Ht].
  destruct (proj2 (Hto q) key Ht) as (request' & Hh' & Hc). congruence.
Qed.

(** X13.  In every state the pool reaches, no promise returned by [acquire]
    has been settled twice, and a settled promise has no holder left: no
    callback of [acquire] waits to settle it and every request that carries
    it is completed.  Nor is a promise ever held twice: no two requests
    carry the same promise, and no request carries the promise of a waiting
    callback of [acquire]. *)
Theorem promise_settled_at_most_once w :
  reachable cfg w →
  NoDup ((settled w).*1) ∧
  (∀ c, c ∈ (settled w).*1 →
     (∀ t p key, tasks w !! t ≠ Some (Task p (AcquireThen c key))) ∧
     (∀ q request, heap w !! q = Some request → _promise request = c →
                   _completed request = true)) ∧
  (∀ q q' request request',
     heap w !! q = Some request → heap w !! q' = Some request' →
     _promise request = _promise request' → q = q') ∧
  (∀ t p c key q request,
     tasks w !! t = Some (Task p (AcquireThen c key)) →
     heap w !! q = Some request → _promise request ≠ c).
Proof.
  intros Hreach.
  destruct (reachable_well_formed w Hreach)
    as (_ & _ & _ & H1 & H2 & H3 & H4 & H5).
  repeat split; try done.
  - intros t p key Htask. by destruct (H1 t p c key Htask) as (_ & _ & ? & _).
  - intros q request Hh <-. destruct (H2 q request Hh) as (_ & _ & Hout).
    destruct (_completed request); [done |]. by destruct Hout.
  - intros t p c key q request Htask Hh.
    destruct (H1 t p c key Htask) as (_ & _ & _ & Hne). by eapply Hne.
Qed.

End Reached.

(** ** One release, one waiter *)

Section OneWaiter.

Variable cfg : Config.

Lemma _process_tasks_exact key w :
  match _acquireRequests w !! key with
  | Some (q :: _) =>
      ∃ p, tasks (_processPendingAcquireRequests cfg key w) =
             <[next w := Task p (ProcessThen q key)]> (tasks w)
  | _ => tasks (_processPendingAcquireRequests cfg key w) = tasks w
  end.
Proof.
  unfold _processPendingAcquireRequests.
  destruct (_acquireRequests w !! key) as [[|q l]|]; try done.
  destruct (_acquire_frame cfg key (set_requests <[key:=l]> w))
    as (_ & _ & _ & _ & Hk & _ & Hn).
  destruct (_acquire _ _ _) as [p w1]. simpl in *. exists p.
  by rewrite Hk, Hn.
Qed.

Lemma _release_tasks_exact key r w :
  match _acquireRequests w !! key with
  | Some (q :: _) =>
      ∃ p, tasks (_release cfg key r w) =
             <[next w := Task p (ProcessThen q key)]> (tasks w)
  | _ => tasks (_release cfg key r w) = tasks w
  end.
Proof.
  unfold _release.
  match goal with |- context [_processPendingAcquireRequests _ _ ?w0] =>
    assert (_acquireRequests w0 = _acquireRequests w
            ∧ tasks w0 = tasks w ∧ next w0 = next w) as (Hr & Ht & Hn)
      by (by destruct (_pools w !! key); [destruct (_validate cfg r) |]);
    pose proof (_process_tasks_exact key w0) as H
  end.
  by rewrite Hr, Ht, Hn in H.
Qed.

(** X14.  A release takes exactly the head of the queue of its key, if
    there is one, and attaches one servicing callback for it; with an empty
    queue it attaches none; the queues of the other keys are not touched. *)
Theorem release_takes_one_waiter key r w :
  (∀ k, queue k (_release cfg key r w) =
        if decide (k = key) then tail (queue key w) else queue k w) ∧
  (queue key w = [] → tasks (_release cfg key r w) = tasks w) ∧
  (∀ q rest, queue key w = q :: rest →
     ∃ p, tasks (_release cfg key r w) =
            <[next w := Task p (ProcessThen q key)]> (tasks w)).
Proof.
  split; [| split].
  - intros k. unfold queue. rewrite _release_requests.
    destruct (decide (k = key)) as [->|Hne].
    + destruct (_acquireRequests w !! key) as [[|q rest]|] eqn:Hq;
        by rewrite ?lookup_insert_eq, ?lookup_delete_eq, ?Hq.
    + destruct (_acquireRequests w !! key) as [[|q rest]|];
        by rewrite ?lookup_insert_ne, ?lookup_delete_ne.
  - unfold queue. intros Hq. pose proof (_release_tasks_exact key r w) as H.
    by destruct (_acquireRequests w !! key) as [[|q rest]|].
  - unfold queue. intros q rest Hq.
    pose proof (_release_tasks_exact key r w) as H.
    destruct (_acquireRequests w !! key) as [[|q' rest']|]; try done.
    simpl in Hq. by injection Hq as -> ->.
Qed.

End OneWaiter.

(** * Runs, continued *)

Lemma one_active_reachable :
  reachable one_at_a_time (after one_at_a_time one_active).
Proof. exists one_active. vm_compute. reflexivity. Defined.

Lemma two_waiting_reachable :
  reachable one_at_a_time (after one_at_a_time two_waiting).
Proof. exists two_waiting. vm_compute. reflexivity. Defined.

(** X1 with resource 7 active for "A": 8 is handed out, 7 released. *)
Lemma acquire_release_restores_counters_witness :
  reachable one_at_a_time (after one_at_a_time one_active) ∧
  _activeResourceCounts
    (_release one_at_a_time "A" 7
       (acquire_then 9 "A" (Some 8) (after one_at_a_time one_active)))
  = _activeResourceCounts (after one_at_a_time one_active).
Proof.
  split; [exact one_active_reachable |].
  exact (acquire_release_restores_counters one_at_a_time "A" 9 8 7
           (after one_at_a_time one_active) one_active_reachable).
Defined.

(** X2 with resource 7 active for "A". *)
Lemma release_never_counts_below_zero_witness :
  reachable one_at_a_time (after one_at_a_time one_active) ∧
  (0 ≤ activeResourceCount "A" (after one_at_a_time one_active))%Z.
Proof.
  split; [exact one_active_reachable |].
  exact (proj1 (release_never_counts_below_zero one_at_a_time "A" 7 "A"
                  (after one_at_a_time one_active) one_active_reachable)).
Defined.

(** X5 with 7 and then 8 released for "A". *)
Lemma idle_list_is_a_stack_witness :
  (_pools (after one_at_a_time one_active) !! "A" = Some [] ∧
   _validate one_at_a_time 7 = true ∧ _validate one_at_a_time 8 = true ∧
   queue "A" (after one_at_a_time one_active) = []) ∧
  idle "A" (_release one_at_a_time "A" 8
              (_release one_at_a_time "A" 7
                 (after one_at_a_time one_active))) = [8; 7].
Proof.
  assert (_pools (after one_at_a_time one_active) !! "A" = Some []) as Hp
    by (vm_compute; reflexivity).
  assert (queue "A" (after one_at_a_time one_active) = []) as Hq
    by (vm_compute; reflexivity).
  split; [exact (conj Hp (conj eq_refl (conj eq_refl Hq))) |].
  exact (proj1 (idle_list_is_a_stack one_at_a_time "A" 7 8 []
                  (after one_at_a_time one_active) Hp eq_refl eq_refl Hq)).
Defined.


(** X7 with resource 7 active for "A" and the bound 1. *)
Lemma acquire_at_bound_times_out_witness :
  (_acquire one_at_a_time "A" (after one_at_a_time one_active)).1
    = Fulfilled None ∧
  ∃ w', run one_at_a_time
          [Acquire "A"; Run (S (next (after one_at_a_time one_active)));
           Timeout (S (S (next (after one_at_a_time one_active))))]
          (after one_at_a_time one_active) = Some w' ∧
        settled w' = settled (after one_at_a_time one_active) ++
          [(next (after one_at_a_time one_active),
            Failed (AcquisitionTimeout (_acquisitionTimeout one_at_a_time)))] ∧
        _activeResourceCounts w'
          = _activeResourceCounts (after one_at_a_time one_active) ∧
        created w' = created (after one_at_a_time one_active) ∧
        queue "A" w' =
          filter (λ item,
                    item ≠ S (S (next (after one_at_a_time one_active))))
            (queue "A" (after one_at_a_time one_active)) ∧
        timers w' !! S (S (next (after one_at_a_time one_active))) = None.
Proof.
  assert ((_acquire one_at_a_time "A" (after one_at_a_time one_active)).1
          = Fulfilled None) as Hnull by (vm_compute; reflexivity).
  split; [exact Hnull |].
  exact (acquire_at_bound_times_out one_at_a_time "A"
           (after one_at_a_time one_active) Hnull).
Defined.

(** X8 on the first acquisition of a pool with the bound 1. *)
Lemma guard_keeps_the_bound_when_alone_witness :
  ((0 < _maxSize one_at_a_time)%Z ∧ within_bound one_at_a_time "A" empty_pool ∧
   acquisition "A" (S (next empty_pool)) one_active ∧
   run one_at_a_time one_active empty_pool
     = Some (after one_at_a_time one_active)) ∧
  within_bound one_at_a_time "A" (after one_at_a_time one_active) ∧
  (activeResourceCount "A" (after one_at_a_time one_active)
   ≤ _maxSize one_at_a_time)%Z.
Proof.
  assert (0 < _maxSize one_at_a_time)%Z as Hmax by (vm_compute; reflexivity).
  assert (within_bound one_at_a_time "A" empty_pool) as Hw
    by (vm_compute; intros H; discriminate H).
  assert (acquisition "A" (S (next empty_pool)) one_active) as Hes
    by (right; left; exists 7; reflexivity).
  assert (run one_at_a_time one_active empty_pool
          = Some (after one_at_a_time one_active)) as Hrun
    by (vm_compute; reflexivity).
  split; [exact (conj Hmax (conj Hw (conj Hes Hrun))) |].
  exact (proj1 (guard_keeps_the_bound_when_alone one_at_a_time "A" empty_pool
                  Hmax Hw) one_active (after one_at_a_time one_active)
           Hes Hrun).
Defined.

(** X9 on a pool without a bound after one acquisition. *)
Lemma unbounded_pool_never_queues_witness :
  (_maxSize seven_is_broken = 0%Z ∧
   reachable seven_is_broken (after seven_is_broken one_active)) ∧
  nobody_queued (after seven_is_broken one_active) ∧
  ∀ key, queue key (after seven_is_broken one_active) = [].
Proof.
  assert (reachable seven_is_broken (after seven_is_broken one_active))
    as Hreach by (exists one_active; vm_compute; reflexivity).
  split; [exact (conj eq_refl Hreach) |].
  exact (unbounded_pool_never_queues seven_is_broken
           (after seven_is_broken one_active) eq_refl Hreach).
Defined.

(** X10 on the timer of request 4, queued for "A". *)
Lemma timer_always_fails_its_caller_witness :
  (reachable one_at_a_time (after one_at_a_time two_waiting) ∧
   timers (after one_at_a_time two_waiting) !! 4 = Some "A") ∧
  ∃ request w',
    heap (after one_at_a_time two_waiting) !! 4 = Some request ∧
    _completed request = false ∧
    step one_at_a_time (Timeout 4) (after one_at_a_time two_waiting)
      = Some w' ∧
    settled w' = settled (after one_at_a_time two_waiting) ++
      [(_promise request,
        Failed (AcquisitionTimeout (_acquisitionTimeout one_at_a_time)))] ∧
    heap w' !! 4 = Some (PendingRequest.complete request) ∧
    timers w' !! 4 = None ∧
    4 ∉ queue "A" w'.
Proof.
  assert (timers (after one_at_a_time two_waiting) !! 4 = Some "A") as Ht
    by (vm_compute; reflexivity).
  split; [exact (conj two_waiting_reachable Ht) |].
  exact (timer_always_fails_its_caller one_at_a_time 4 "A"
           (after one_at_a_time two_waiting) two_waiting_reachable Ht).
Defined.

(** X11 on request 4, queued for "A". *)
Lemma queued_request_is_pending_witness :
  (reachable one_at_a_time (after one_at_a_time two_waiting) ∧
   4 ∈ queue "A" (after one_at_a_time two_waiting)) ∧
  timers (after one_at_a_time two_waiting) !! 4 = Some "A".
Proof.
  assert (queue "A" (after one_at_a_time two_waiting) = [4; 7]) as Hq
    by (vm_compute; reflexivity).
  assert (4 ∈ queue "A" (after one_at_a_time two_waiting)) as Hin
    by (rewrite Hq; left).
  split; [exact (conj two_waiting_reachable Hin) |].
  exact (proj1 (queued_request_is_pending one_at_a_time "A" 4
                  (after one_at_a_time two_waiting)
                  two_waiting_reachable Hin)).
Defined.

(** X12 on request 4, queued for "A". *)
Lemma pending_request_keeps_its_timer_witness :
  (reachable one_at_a_time (after one_at_a_time two_waiting) ∧
   heap (after one_at_a_time two_waiting) !! 4
     = Some (mkRequest 2 4 false)) ∧
  (_completed (mkRequest 2 4 false) = false ↔
   is_Some (timers (after one_at_a_time two_waiting) !! 4)).
Proof.
  assert (heap (after one_at_a_time two_waiting) !! 4
          = Some (mkRequest 2 4 false)) as Hh by (vm_compute; reflexivity).
  split; [exact (conj two_waiting_reachable Hh) |].
  exact (pending_request_keeps_its_timer one_at_a_time 4
           (mkRequest 2 4 false) (after one_at_a_time two_waiting)
           two_waiting_reachable Hh).
Defined.

(** X13 after a run in which two promises were settled. *)
Lemma promise_settled_at_most_once_witness :
  reachable one_at_a_time (after one_at_a_time left_behind) ∧
  NoDup ((settled (after one_at_a_time left_behind)).*1).
Proof.
  assert (reachable one_at_a_time (after one_at_a_time left_behind))
    as Hreach by (exists left_behind; vm_compute; reflexivity).
  split; [exact Hreach |].
  exact (proj1 (promise_settled_at_most_once one_at_a_time
                  (after one_at_a_time left_behind) Hreach)).
Defined.
